(** * rf: discovery of ready-to-run nodes and synthesis of the make script

    A shallow embedding of [rf/rflib.py].  The Python functions keep their
    names.  Everything the program learns about the world comes from the
    [os] module, so a filesystem state is represented by what [os] answers
    on it ([os_state]); exceptions are values of an error monad; the
    generator [find_dependencies] is the list of pairs it yielded together
    with the way it stopped. *)

From Stdlib Require Import Ascii.
From stdpp Require Import gmap strings list sets.

Set Warnings "-clear-no-such-hyp".

(** ** Python values and exceptions *)

Inductive errno := ENOENT | EACCES | ENOTDIR | ELOOP | EPIPE.

Inductive exn :=
| AssertionError
| OSError (e : errno)
| TypeError
| ValueError
| UnicodeEncodeError.

Inductive res (A : Type) :=
| Ret (a : A)
| Raise (e : exn).
Arguments Ret {A} a.
Arguments Raise {A} e.

Definition bind {A B} (m : res A) (k : A → res B) : res B :=
  match m with
  | Ret a => k a
  | Raise e => Raise e
  end.

Notation "'let*' x ':=' m 'in' k" := (bind m (fun x => k))
  (at level 10, x name, m at level 100, k at level 200).

Definition nl : string := String (Ascii.ascii_of_nat 10) "".
Definition tab : string := String (Ascii.ascii_of_nat 9) "".

(** [s.startswith(p)] *)
Definition startswith (s p : string) : bool := String.prefix p s.

(** [s.endswith('/')] *)
Fixpoint endswith_sep (s : string) : bool :=
  match s with
  | "" => false
  | String c "" => Ascii.eqb c "/"%char
  | String _ rest => endswith_sep rest
  end.

(** [sep.join(l)] *)
Definition str_join (sep : string) (l : list string) : string :=
  String.concat sep l.

(** [tpl % args] for a template whose only conversions are [%s]:
    each [%s] consumes one argument; too few or too many arguments are a
    [TypeError], any other conversion is outside the fragment. *)
Fixpoint percent (tpl : string) (args : list string) : res string :=
  match tpl with
  | "" =>
      match args with
      | [] => Ret ""
      | _ :: _ => Raise TypeError
      end
  | String c rest =>
      if Ascii.eqb c "%"%char then
        match rest with
        | String d rest' =>
            if Ascii.eqb d "s"%char then
              match args with
              | a :: args' => let* s := percent rest' args' in Ret (a +:+ s)
              | [] => Raise TypeError
              end
            else Raise ValueError
        | "" => Raise ValueError
        end
      else let* s := percent rest args in Ret (String c s)
  end.

(** ** The [os] module on a fixed filesystem state *)

Inductive ftype := S_IFDIR | S_IFREG | S_IFLNK.

Record os_state := {
  os_stat : string → res ftype;          (* follows symbolic links *)
  os_lstat : string → res ftype;         (* does not follow the last one *)
  os_access_X_OK : string → bool;        (* os.access(p, os.X_OK) *)
  os_listdir : string → res (list string);
  os_path_realpath : string → string
}.

(** [os.path.isdir], [os.path.exists] and [os.path.islink] answer [False]
    on every failure of the underlying call. *)
Definition os_path_isdir (fs : os_state) (p : string) : bool :=
  match os_stat fs p with
  | Ret S_IFDIR => true
  | _ => false
  end.

Definition os_path_exists (fs : os_state) (p : string) : bool :=
  match os_stat fs p with
  | Ret _ => true
  | Raise _ => false
  end.

Definition os_path_islink (fs : os_state) (p : string) : bool :=
  match os_lstat fs p with
  | Ret S_IFLNK => true
  | _ => false
  end.

(** [os.path.join(a, b)] of posixpath, two arguments. *)
Definition os_path_join (a b : string) : string :=
  if startswith b "/" then b
  else if (String.eqb a "" || endswith_sep a)%bool then a +:+ b
  else a +:+ "/" +:+ b.

(** ** rflib *)

Definition is_ready_to_run (fs : os_state) (node : option string) : bool :=
  match node with
  | None => false
  | Some node =>
      os_path_isdir fs (node +:+ "/__")
      && negb (os_path_exists fs (node +:+ "/_"))
      && os_access_X_OK fs (node +:+ "/__/driver")
  end.

Definition nohup_out (node : string) : string := node +:+ "/_/nohup.out".

Definition rule_template : string :=
  ".ONESHELL:" +:+ nl +:+
  "%s: %s" +:+ nl +:+
  tab +:+ "date" +:+ nl +:+
  tab +:+ "mkdir %s/_" +:+ nl +:+
  tab +:+ "cd %s/_" +:+ nl +:+
  tab +:+ "nohup ../__/driver" +:+ nl +:+
  nl.

Definition rule_string (dependencies : list string) (node : string) : res string :=
  let dep_string := str_join " " (map nohup_out dependencies) in
  percent rule_template [nohup_out node; dep_string; node; node].

Definition dependency_links (fs : os_state) (node : string) : res (list string) :=
  let depdir := node +:+ "/__/dep" in
  if os_path_isdir fs depdir then
    let* names := os_listdir fs depdir in
    Ret (map (fun x => os_path_realpath fs (depdir +:+ "/" +:+ x))
             (filter (fun x => os_path_islink fs (depdir +:+ "/" +:+ x) = true
                             ∧ os_path_isdir fs (depdir +:+ "/" +:+ x) = true)
                     names))
  else Ret [].

Definition belongs_to_tree (fs : os_state) (dirname basedir : string) : res bool :=
  if (os_path_isdir fs dirname && os_path_isdir fs basedir)%bool then
    Ret (startswith (os_path_realpath fs dirname +:+ "/")
                    (os_path_realpath fs basedir +:+ "/"))
  else Raise AssertionError.

(** A queue entry [(parent, child)]; the parent of the root is [None]. *)
Definition entry : Type := option string * string.
(** What the generator yields: [(dependencies, child)]. *)
Definition pair : Type := list string * string.

(** The condition of the comprehension at lines 58-61, [and] evaluated
    left to right. *)
Definition dependency_ok (fs : os_state) (node : string) (x : option string) : res bool :=
  match x with
  | None => Ret false
  | Some p =>
      if is_ready_to_run fs (Some (os_path_realpath fs p))
      then belongs_to_tree fs p node
      else Ret false
  end.

Fixpoint filterM {A} (f : A → res bool) (l : list A) : res (list A) :=
  match l with
  | [] => Ret []
  | x :: l' =>
      let* b := f x in
      let* r := filterM f l' in
      Ret (if b then x :: r else r)
  end.

Definition not_marker (x : string) : bool :=
  negb (String.eqb x "_" || String.eqb x "__").

(** The entries pushed at line 68. *)
Definition subdirectories (fs : os_state) (child : string) : res (list entry) :=
  let* names := os_listdir fs child in
  Ret (map (fun xx => (Some child, xx))
           (filter (fun p => os_path_isdir fs p = true)
                   (map (os_path_join child)
                        (filter (fun x => not_marker x = true) names)))).

(** One turn of the [while] loop: the pairs yielded during the turn and
    either the entries appended to the queue or the exception that ended
    the turn.  A pair yielded before the exception stays yielded. *)
Definition visit (fs : os_state) (node : string) (recursive : bool) (e : entry)
  : list pair * res (list entry) :=
  let '(parent, child) := e in
  match dependency_links fs child with
  | Raise ex => ([], Raise ex)
  | Ret l =>
    match filterM (dependency_ok fs node) (parent :: map Some l) with
    | Raise ex => ([], Raise ex)
    | Ret kept =>
      let dependencies := omap id kept in
      match (if is_ready_to_run fs (Some (os_path_realpath fs child))
             then belongs_to_tree fs child node else Ret false) with
      | Raise ex => ([], Raise ex)
      | Ret b =>
        let yielded := if b then [(dependencies, child)] else [] in
        if recursive then (yielded, subdirectories fs child)
        else (yielded, Ret [])
      end
    end
  end.

Inductive status :=
| Finished              (* the generator is exhausted *)
| Raised (e : exn)      (* an exception left the generator *)
| OutOfFuel.            (* the loop was still running *)

Fixpoint traverse (fs : os_state) (node : string) (recursive : bool)
    (fuel : nat) (queue : list entry) : list pair * status :=
  match queue with
  | [] => ([], Finished)
  | e :: rest =>
      match fuel with
      | 0 => ([], OutOfFuel)
      | S fuel' =>
          match visit fs node recursive e with
          | (yielded, Raise ex) => (yielded, Raised ex)
          | (yielded, Ret more) =>
              let '(later, st) := traverse fs node recursive fuel' (rest ++ more) in
              (yielded ++ later, st)
          end
      end
  end.

(** The generator run to its end, with at most [fuel] turns of the loop. *)
Definition find_dependencies (fs : os_state) (fuel : nat) (node : string)
    (recursive : bool) : list pair * status :=
  if os_path_isdir fs node then traverse fs node recursive fuel [(None, node)]
  else ([], Raised AssertionError).

(** ** makefile

    [dependency_set] and [child_set] are Python sets.  The order in which
    a set is iterated is not part of its value: it is fixed by the
    interpreter's hash table, and enters here as [set_iter]. *)

Record accumulator := {
  makefile_string : string;
  dependency_set : gset string;
  child_set : gset string
}.

Fixpoint foldM {A B} (f : A → B → res A) (a : A) (l : list B) : res A :=
  match l with
  | [] => Ret a
  | x :: l' => let* a' := f a x in foldM f a' l'
  end.

(** The body of the first [for] loop. *)
Definition consume (acc : accumulator) (p : pair) : res accumulator :=
  let '(dependencies, child) := p in
  let* r := rule_string dependencies child in
  Ret {| makefile_string := makefile_string acc +:+ r;
         dependency_set :=
           foldl (fun s p => s ∪ {[ p ]}) (dependency_set acc) dependencies;
         child_set := child_set acc ∪ {[ child ]} |}.

(** The body of the second [for] loop. *)
Definition trivial_rule (text : string) (node : string) : res string :=
  let* r := rule_string [] node in Ret (text +:+ r).

Definition makefile (set_iter : gset string → list string)
    (dependency_iter : list pair) : res string :=
  let* acc := foldM consume
                {| makefile_string := ""; dependency_set := ∅; child_set := ∅ |}
                dependency_iter in
  let* text := foldM trivial_rule (makefile_string acc)
                 (set_iter (dependency_set acc ∖ child_set acc)) in
  Ret ("all: "
       +:+ str_join " " (map nohup_out (set_iter (dependency_set acc ∪ child_set acc)))
       +:+ nl +:+ nl +:+ text).

(** ** The bridge to make

    What the program does to the child process, in order, and how
    [run_make] ends.  Whether make can be started, whether the script can
    be encoded, whether the pipe takes it and with which status make
    exits is decided outside the program: *)

Record process_env := {
  (* subprocess.Popen(argv, stdin=PIPE): an OSError when the program
     cannot be started *)
  env_popen : list string → res unit;
  (* str.encode(): UnicodeEncodeError on a name that is not text *)
  env_encode : string → res string;
  (* p.stdin.write(data) and p.stdin.close(), which flushes: an OSError
     when the pipe is broken *)
  env_write : string → res unit;
  env_close : string → res unit;
  (* p.wait(): the exit status of make after it read data *)
  env_wait : string → Z
}.

Inductive process_event :=
| Popen (argv : list string)
| StdinWrite (data : string)
| StdinClose
| Wait (returncode : Z).

(** The events up to the return or the exception; the value of
    [p.wait()] is dropped and [None] returned. *)
Definition run_make (env : process_env) (makefile_string : string)
  : list process_event * res unit :=
  let argv := ["make"; "-f"; "-"] in
  match env_popen env argv with
  | Raise ex => ([], Raise ex)
  | Ret _ =>
    match env_encode env makefile_string with
    | Raise ex => ([Popen argv], Raise ex)
    | Ret data =>
      match env_write env data with
      | Raise ex => ([Popen argv], Raise ex)
      | Ret _ =>
        match env_close env data with
        | Raise ex => ([Popen argv; StdinWrite data], Raise ex)
        | Ret _ =>
            ([Popen argv; StdinWrite data; StdinClose;
              Wait (env_wait env data)], Ret tt)
        end
      end
    end
  end.

Record Namespace := {
  args_node : string;
  args_dry_run : bool;
  args_verbose : bool;
  args_recursive : bool
}.

(** [run]: the events on the child process and how the call ended.  An
    exception leaving the generator leaves [makefile] and [run] too, and
    so does one leaving [run_make]. *)
Definition run (fs : os_state) (env : process_env)
    (set_iter : gset string → list string) (fuel : nat) (args : Namespace)
  : list process_event * status :=
  match find_dependencies fs fuel (os_path_realpath fs (args_node args))
          (args_recursive args) with
  | (pairs, Finished) =>
      match makefile set_iter pairs with
      | Ret text =>
          match run_make env text with
          | (events, Ret _) => (events, Finished)
          | (events, Raise ex) => (events, Raised ex)
          end
      | Raise ex => ([], Raised ex)
      end
  | (_, st) => ([], st)
  end.

(** The exit status of the interpreter after [main()]: 0 when [run]
    returned, 1 when an exception was not caught. *)
Definition exit_status (st : status) : option Z :=
  match st with
  | Finished => Some 0%Z
  | Raised _ => Some 1%Z
  | OutOfFuel => None
  end.

Definition main (fs : os_state) (env : process_env)
    (set_iter : gset string → list string) (fuel : nat) (args : Namespace)
  : option Z :=
  exit_status (snd (run fs env set_iter fuel args)).

(** ** Filesystem states written as tables

    A row gives what [os] answers for one spelling of a path; a path
    without a row does not exist. *)

Record row := {
  row_stat : res ftype;
  row_lstat : res ftype;
  row_access_X_OK : bool;
  row_listdir : res (list string);
  row_realpath : string
}.

Definition directory (p : string) (names : list string) : string * row :=
  (p, {| row_stat := Ret S_IFDIR; row_lstat := Ret S_IFDIR;
         row_access_X_OK := true; row_listdir := Ret names;
         row_realpath := p |}).

Definition executable (p : string) : string * row :=
  (p, {| row_stat := Ret S_IFREG; row_lstat := Ret S_IFREG;
         row_access_X_OK := true; row_listdir := Raise (OSError ENOTDIR);
         row_realpath := p |}).

Definition regular (p : string) : string * row :=
  (p, {| row_stat := Ret S_IFREG; row_lstat := Ret S_IFREG;
         row_access_X_OK := false; row_listdir := Raise (OSError ENOTDIR);
         row_realpath := p |}).

(** A directory and an executable file spelled [p] through a symbolic
    link higher up in the path, with canonical path [canonical]. *)
Definition directory_at (p canonical : string) (names : list string)
  : string * row :=
  (p, {| row_stat := Ret S_IFDIR; row_lstat := Ret S_IFDIR;
         row_access_X_OK := true; row_listdir := Ret names;
         row_realpath := canonical |}).

Definition executable_at (p canonical : string) : string * row :=
  (p, {| row_stat := Ret S_IFREG; row_lstat := Ret S_IFREG;
         row_access_X_OK := true; row_listdir := Raise (OSError ENOTDIR);
         row_realpath := canonical |}).

(** A symbolic link at [p] to the directory [target]. *)
Definition symlink_to_directory (p target : string) (names : list string)
  : string * row :=
  (p, {| row_stat := Ret S_IFDIR; row_lstat := Ret S_IFLNK;
         row_access_X_OK := true; row_listdir := Ret names;
         row_realpath := target |}).

(** A path below a directory that may not be searched. *)
Definition denied (p : string) : string * row :=
  (p, {| row_stat := Raise (OSError EACCES); row_lstat := Raise (OSError EACCES);
         row_access_X_OK := false; row_listdir := Raise (OSError EACCES);
         row_realpath := p |}).

Fixpoint lookup_row (t : list (string * row)) (p : string) : option row :=
  match t with
  | [] => None
  | (q, r) :: t' => if String.eqb p q then Some r else lookup_row t' p
  end.

Definition os_of_table (t : list (string * row)) : os_state := {|
  os_stat p := from_option row_stat (Raise (OSError ENOENT)) (lookup_row t p);
  os_lstat p := from_option row_lstat (Raise (OSError ENOENT)) (lookup_row t p);
  os_access_X_OK p := from_option row_access_X_OK false (lookup_row t p);
  os_listdir p := from_option row_listdir (Raise (OSError ENOENT)) (lookup_row t p);
  os_path_realpath p := from_option row_realpath p (lookup_row t p)
|}.

(** One ready node: [/r] with an executable [/r/__/driver] and no [/r/_]. *)
Definition fs_single : os_state := os_of_table [
  directory "/r" ["__"];
  directory "/r/__" ["driver"];
  executable "/r/__/driver"
].

(** The same node with a regular file named [_] in it. *)
Definition fs_results_file : os_state := os_of_table [
  directory "/r" ["__"; "_"];
  directory "/r/__" ["driver"];
  executable "/r/__/driver";
  regular "/r/_"
].

(** [/r] exists, and its entries may not be inspected. *)
Definition fs_denied : os_state := os_of_table [
  directory "/r" ["__"];
  denied "/r/__";
  denied "/r/_";
  denied "/r/__/driver"
].

(** A root with three entries: the node [a], the node [b] whose
    [__/dep/x] is a link to [a], and [s], a symbolic link to [a]. *)
Definition fs_tree : os_state := os_of_table [
  directory "/r" ["__"; "a"; "b"; "s"];
  directory "/r/__" ["driver"];
  executable "/r/__/driver";
  directory "/r/a" ["__"];
  directory "/r/a/__" ["driver"];
  executable "/r/a/__/driver";
  directory "/r/b" ["__"];
  directory "/r/b/__" ["driver"; "dep"];
  executable "/r/b/__/driver";
  directory "/r/b/__/dep" ["x"];
  symlink_to_directory "/r/b/__/dep/x" "/r/a" ["__"];
  symlink_to_directory "/r/s" "/r/a" ["__"];
  directory_at "/r/s/__" "/r/a/__" ["driver"];
  executable_at "/r/s/__/driver" "/r/a/__/driver"
].

(** The node [a]; [out], a symbolic link to the ready node [/x] outside
    the tree; and, reached through it, [/x/back], a symbolic link to [a]. *)
Definition fs_outside : os_state := os_of_table [
  directory "/r" ["a"; "out"];
  directory "/r/a" ["__"];
  directory "/r/a/__" ["driver"];
  executable "/r/a/__/driver";
  symlink_to_directory "/r/out" "/x" ["__"; "back"];
  directory_at "/r/out/__" "/x/__" ["driver"];
  executable_at "/r/out/__/driver" "/x/__/driver";
  directory "/x" ["__"; "back"];
  directory "/x/__" ["driver"];
  executable "/x/__/driver";
  symlink_to_directory "/r/out/back" "/r/a" ["__"];
  symlink_to_directory "/x/back" "/r/a" ["__"]
].

(** A directory that may be entered and not read. *)
Definition unlistable (p : string) : string * row :=
  (p, {| row_stat := Ret S_IFDIR; row_lstat := Ret S_IFDIR;
         row_access_X_OK := true; row_listdir := Raise (OSError EACCES);
         row_realpath := p |}).

(** The ready node [/r] with a subdirectory [a] that may not be read. *)
Definition fs_unreadable : os_state := os_of_table [
  directory "/r" ["__"; "a"];
  directory "/r/__" ["driver"];
  executable "/r/__/driver";
  unlistable "/r/a"
].

(** The filesystem root as a ready node, with the ready node [/a] in
    it.  The program spells the entries of the root with two slashes. *)
Definition fs_slash : os_state := os_of_table [
  directory "/" ["__"; "a"];
  directory_at "//__" "/__" ["driver"];
  executable_at "//__/driver" "/__/driver";
  directory "/__" ["driver"];
  executable "/__/driver";
  directory "/a" ["__"];
  directory "/a/__" ["driver"];
  executable "/a/__/driver"
].

(** [fs] with every directory listing returned in the opposite order. *)
Definition reversed_listings (fs : os_state) : os_state := {|
  os_stat := os_stat fs;
  os_lstat := os_lstat fs;
  os_access_X_OK := os_access_X_OK fs;
  os_listdir p := match os_listdir fs p with
                  | Ret names => Ret (reverse names)
                  | Raise ex => Raise ex
                  end;
  os_path_realpath := os_path_realpath fs
|}.

(** [/r] followed by [n] times [/loop]. *)
Fixpoint loops (n : nat) : string :=
  match n with
  | 0 => "/r"
  | S n' => loops n' +:+ "/loop"
  end.

(** [p] is [loops n +:+ suffix] for some [n] within the limit. *)
Definition at_loops (limit : option nat) (suffix p : string) : bool :=
  existsb (fun n => String.eqb p (loops n +:+ suffix))
          (seq 0 (S (from_option (fun l => l `min` String.length p)
                                 (String.length p) limit))).

Definition loop_directory (limit : option nat) (p : string) : bool :=
  at_loops limit "" p || at_loops limit "/__" p.

Definition loop_entry (limit : option nat) (p : string) : bool :=
  loop_directory limit p || at_loops limit "/__/driver" p.

(** The ready node [/r] (with [/r/__/driver]) whose only other entry,
    [loop], is a symbolic link to [/r] itself.
    [limit] is the number of symbolic links the kernel follows while it
    resolves one path before it answers [ELOOP]; [None]: as many as there
    are. *)
Definition fs_loop (limit : option nat) : os_state := {|
  os_stat p :=
    if loop_directory limit p then Ret S_IFDIR
    else if at_loops limit "/__/driver" p then Ret S_IFREG
    else if loop_entry None p then Raise (OSError ELOOP)
    else Raise (OSError ENOENT);
  os_lstat p :=
    if String.eqb p "/r" then Ret S_IFDIR
    else if at_loops limit "" p then Ret S_IFLNK
    else if loop_directory limit p then Ret S_IFDIR
    else if at_loops limit "/__/driver" p then Ret S_IFREG
    else if loop_entry None p then Raise (OSError ELOOP)
    else Raise (OSError ENOENT);
  os_access_X_OK p := loop_entry limit p;
  os_listdir p :=
    if at_loops limit "" p then Ret ["__"; "loop"]
    else if at_loops limit "/__" p then Ret ["driver"]
    else if at_loops limit "/__/driver" p then Raise (OSError ENOTDIR)
    else if loop_entry None p then Raise (OSError ELOOP)
    else Raise (OSError ENOENT);
  os_path_realpath p :=
    if at_loops None "" p then "/r"
    else if at_loops None "/__" p then "/r/__"
    else if at_loops None "/__/driver" p then "/r/__/driver"
    else p
|}.

(** [n] symbolic links are within the limit. *)
Definition within (limit : option nat) (n : nat) : bool :=
  from_option (fun l => n <=? l) true limit.

(** The entry of [loops n] in the queue and the pair its turn yields. *)
Definition loop_parent (n : nat) : option string :=
  match n with
  | 0 => None
  | S k => Some (loops k)
  end.

Definition loop_pair (n : nat) : pair :=
  (match n with 0 => [] | S k => [loops k] end, loops n).

(** An environment for scripts of ASCII names, as all names of the
    tables here are: make starts, the script is encoded as it is, the
    pipe takes it and make exits with [code]. *)
Definition make_exits (code : Z) : process_env := {|
  env_popen _ := Ret tt;
  env_encode text :=
    if forallb (fun c => Ascii.nat_of_ascii c <? 128) (String.list_ascii_of_string text)
    then Ret text else Raise UnicodeEncodeError;
  env_write _ := Ret tt;
  env_close _ := Ret tt;
  env_wait _ := code
|}.

(** An executor that fails whatever it reads. *)
Definition make_fails : process_env := make_exits 2.

(** No program named make can be started. *)
Definition no_make : process_env := {|
  env_popen _ := Raise (OSError ENOENT);
  env_encode text := Ret text;
  env_write _ := Ret tt;
  env_close _ := Ret tt;
  env_wait _ := 0%Z
|}.

(** The root [/r] is not ready; its entry [a] may not be read and its
    entry [b] is ready. *)
Definition fs_partial : os_state := os_of_table [
  directory "/r" ["a"; "b"];
  unlistable "/r/a";
  directory "/r/b" ["__"];
  directory "/r/b/__" ["driver"];
  executable "/r/b/__/driver"
].

(** ** The traversal as a relation *)

(** The entries that enter the queue: those it starts with and, for each
    entry whose turn ends without an exception, those the turn appends. *)
Inductive reachable (fs : os_state) (node : string) (recursive : bool)
    (queue : list entry) : entry → Prop :=
| reachable_start e :
    e ∈ queue → reachable fs node recursive queue e
| reachable_step e more e' :
    reachable fs node recursive queue e →
    (visit fs node recursive e).2 = Ret more →
    e' ∈ more →
    reachable fs node recursive queue e'.

(** The paths spelled by joining names of directory listings onto the
    root, one listing at a time. *)
Inductive joined (fs : os_state) (node : string) : string → Prop :=
| joined_root : joined fs node node
| joined_entry c names x :
    joined fs node c →
    os_listdir fs c = Ret names →
    x ∈ names →
    joined fs node (os_path_join c x).

(** The directories the recursive traversal walks: the root and, below a
    walked directory, each entry of its listing other than [_] and [__]
    that [os.path.isdir] accepts. *)
Inductive walked (fs : os_state) (node : string) : string → Prop :=
| walked_root : walked fs node node
| walked_entry c names x :
    walked fs node c →
    os_listdir fs c = Ret names →
    x ∈ names →
    not_marker x = true →
    os_path_isdir fs (os_path_join c x) = true →
    walked fs node (os_path_join c x).

(** ** Predicates used in the statements *)

(** What the kernel guarantees about path resolution at [p]: when
    [p/__] resolves, [p] resolves to a directory. *)
Definition resolves_through (fs : os_state) (p : string) : Prop :=
  ∀ t, os_stat fs (p +:+ "/__") = Ret t → os_stat fs p = Ret S_IFDIR.

(** The directories the traversal enters from [child]: the entries of
    its listing, other than [_] and [__], that [os.path.isdir] accepts,
    symbolic links to directories among them. *)
Definition entered (fs : os_state) (child : string) : list string :=
  match os_listdir fs child with
  | Ret names =>
      filter (fun p => os_path_isdir fs p = true)
             (map (os_path_join child)
                  (filter (fun x => not_marker x = true) names))
  | Raise _ => []
  end.

(** The paths entered [k] levels below [paths]. *)
Fixpoint descend (fs : os_state) (k : nat) (paths : list string) : list string :=
  match k with
  | 0 => paths
  | S k' => descend fs k' (flat_map (entered fs) paths)
  end.

(** The number of paths entered less than [depth] levels below [paths]. *)
Fixpoint weight (fs : os_state) (depth : nat) (paths : list string) : nat :=
  match depth with
  | 0 => 0
  | S d => length paths + weight fs d (flat_map (entered fs) paths)
  end.

(** Two answers of [os.listdir] that differ at most in the order of the
    names. *)
Definition same_listing (r1 r2 : res (list string)) : Prop :=
  match r1, r2 with
  | Ret l1, Ret l2 => l1 ≡ₚ l2
  | Raise e1, Raise e2 => e1 = e2
  | _, _ => False
  end.

(** Two observations of one filesystem state: every answer is the same,
    directory listings up to the order of their names. *)
Record same_filesystem (fs1 fs2 : os_state) : Prop := {
  same_stat : ∀ p, os_stat fs1 p = os_stat fs2 p;
  same_lstat : ∀ p, os_lstat fs1 p = os_lstat fs2 p;
  same_access : ∀ p, os_access_X_OK fs1 p = os_access_X_OK fs2 p;
  same_realpath : ∀ p, os_path_realpath fs1 p = os_path_realpath fs2 p;
  same_listdir : ∀ p, same_listing (os_listdir fs1 p) (os_listdir fs2 p)
}.

(** Two pairs for the same node with the same dependencies. *)
Definition same_pair (y1 y2 : pair) : Prop :=
  y1.2 = y2.2 ∧ y1.1 ≡ₚ y2.1.

(** Two sequences of pairs that are the same set of pairs. *)
Definition same_pair_set (l1 l2 : list pair) : Prop :=
  (∀ y1, y1 ∈ l1 → ∃ y2, y2 ∈ l2 ∧ same_pair y1 y2)
  ∧ (∀ y2, y2 ∈ l2 → ∃ y1, y1 ∈ l1 ∧ same_pair y1 y2).

Definition returns_true (r : res bool) : bool :=
  match r with
  | Ret true => true
  | _ => false
  end.

(** The four conditions the classifier decides: the node is a directory,
    [__] is a directory in it, nothing at all is named [_] in it, and
    [__/driver] may be executed. *)
Definition eligible (fs : os_state) (p : string) : Prop :=
  os_path_isdir fs p = true
  ∧ os_path_isdir fs (p +:+ "/__") = true
  ∧ os_path_exists fs (p +:+ "/_") = false
  ∧ os_access_X_OK fs (p +:+ "/__/driver") = true.

(** The eligibility invariant with its third part read as written, the
    node has no results subdirectory: [_] is not a directory in it. *)
Definition eligible_no_results_directory (fs : os_state) (p : string) : Prop :=
  os_path_isdir fs p = true
  ∧ os_path_isdir fs (p +:+ "/__") = true
  ∧ os_path_isdir fs (p +:+ "/_") = false
  ∧ os_access_X_OK fs (p +:+ "/__/driver") = true.

(** The lines of a rule for [node] with prerequisites [dependencies]. *)
Definition rule_lines (dependencies : list string) (node : string) : list string :=
  [ ".ONESHELL:";
    (node +:+ "/_/nohup.out") +:+ ": "
      +:+ str_join " " (map (fun x => x +:+ "/_/nohup.out") dependencies);
    tab +:+ "date";
    tab +:+ "mkdir " +:+ node +:+ "/_";
    tab +:+ "cd " +:+ node +:+ "/_";
    tab +:+ "nohup ../__/driver";
    "" ].

(** Every line followed by a newline. *)
Fixpoint unlines (l : list string) : string :=
  match l with
  | [] => ""
  | x :: l' => x +:+ nl +:+ unlines l'
  end.

Fixpoint rules_text (rules : list pair) : string :=
  match rules with
  | [] => ""
  | (dependencies, node) :: rules' =>
      unlines (rule_lines dependencies node) +:+ rules_text rules'
  end.

(** A script: the umbrella rule over [goals], a blank line, the rules. *)
Definition script_text (goals : list string) (rules : list pair) : string :=
  "all: " +:+ str_join " " (map nohup_out goals) +:+ nl +:+ nl
  +:+ rules_text rules.

Definition seen_dependencies (pairs : list pair) : gset string :=
  list_to_set (concat (map fst pairs)).

Definition seen_children (pairs : list pair) : gset string :=
  list_to_set (map snd pairs).

(** The rules of the script [makefile] returns, in the order of the text,
    and the prerequisites of its umbrella rule. *)
Definition script_rules (set_iter : gset string → list string)
    (pairs : list pair) : list pair :=
  pairs ++ map (fun node => ([], node))
               (set_iter (seen_dependencies pairs ∖ seen_children pairs)).

Definition script_goals (set_iter : gset string → list string)
    (pairs : list pair) : list string :=
  set_iter (seen_dependencies pairs ∪ seen_children pairs).

(** Iterating a set visits each of its elements once. *)
Definition iterates (set_iter : gset string → list string) : Prop :=
  ∀ s, set_iter s ≡ₚ elements s.

(** The paths of [l] in the order in which they are first seen. *)
Fixpoint first_seen (l : list string) : list string :=
  match l with
  | [] => []
  | x :: l' => x :: filter (fun y => y ≠ x) (first_seen l')
  end.

(** The order of emission in the words of the specification: the
    dependencies never seen as a target in the order they were first seen,
    and the union of dependencies and targets in insertion order. *)
Definition never_targeted (pairs : list pair) : list string :=
  filter (fun d => d ∉ map snd pairs) (first_seen (concat (map fst pairs))).

Definition insertion_order_rules (pairs : list pair) : list pair :=
  pairs ++ map (fun node => ([], node)) (never_targeted pairs).

Definition insertion_order_goals (pairs : list pair) : list string :=
  first_seen (concat (map fst pairs) ++ map snd pairs).

(** * Properties *)

Example fs_tree_pairs :
  find_dependencies fs_tree 10 "/r" true
  = ([([], "/r"); (["/r"], "/r/a"); (["/r"; "/r/a"], "/r/b"); (["/r"], "/r/s")],
     Finished).
Proof. vm_compute. reflexivity. Qed.

Example fs_loop_pairs :
  find_dependencies (fs_loop (Some 2)) 10 "/r" true
  = ([([], "/r"); (["/r"], "/r/loop"); (["/r/loop"], "/r/loop/loop")], Finished).
Proof. vm_compute. reflexivity. Qed.

Example fs_loop_unbounded :
  snd (find_dependencies (fs_loop None) 10 "/r" true) = OutOfFuel.
Proof. vm_compute. reflexivity. Qed.

(** ** The node classifier *)

Section classifier.
Context (fs : os_state).

Lemma is_ready_to_run_Some p :
  is_ready_to_run fs (Some p) = true ↔
  os_path_isdir fs (p +:+ "/__") = true
  ∧ os_path_exists fs (p +:+ "/_") = false
  ∧ os_access_X_OK fs (p +:+ "/__/driver") = true.
Proof.
  unfold is_ready_to_run.
  rewrite !andb_true_iff, negb_true_iff. tauto.
Qed.

Lemma resolves_through_isdir p :
  resolves_through fs p →
  os_path_isdir fs (p +:+ "/__") = true → os_path_isdir fs p = true.
Proof.
  intros Hlaw. unfold os_path_isdir at 1.
  destruct (os_stat fs (p +:+ "/__")) as [t|] eqn:E; [|done].
  intros _. unfold os_path_isdir. by rewrite (Hlaw t E).
Qed.
End classifier.

(** C1 fails on the code: in [fs_results_file] the node [/r] is a
    directory with a declaration directory, an executable driver and no
    results directory (its [_] is a regular file), so the four parts hold
    and the node has no [_/] dir, which is when the docstring of
    [is_ready_to_run] promises [True]; the classifier answers [False]. *)
Lemma is_ready_to_run_results_file :
  eligible_no_results_directory fs_results_file "/r"
  ∧ is_ready_to_run fs_results_file (Some "/r") = false.
Proof. vm_compute. done. Qed.

(** What the classifier decides: it answers [True] exactly when the node
    is a directory, [__] is a directory in it, [os.path.exists] answers
    [False] on its [_], and [__/driver] may be executed; it answers
    [False] on [None]. *)
Theorem is_ready_to_run_iff_eligible (fs : os_state) (p : string) :
  resolves_through fs p →
  (is_ready_to_run fs (Some p) = true ↔ eligible fs p)
  ∧ is_ready_to_run fs None = false.
Proof.
  intros Hlaw. split; [|done].
  rewrite is_ready_to_run_Some. unfold eligible. split.
  - intros (Hd & He & Hx). eauto using resolves_through_isdir.
  - tauto.
Qed.

Lemma is_ready_to_run_iff_eligible_witness :
  (is_ready_to_run fs_single (Some "/r") = true ↔ eligible fs_single "/r")
  ∧ is_ready_to_run fs_single None = false.
Proof.
  apply (is_ready_to_run_iff_eligible fs_single "/r").
  intros t _. vm_compute. reflexivity.
Defined.

(** C8 as stated fails: in [fs_denied] inspecting [/r/__] is refused with
    a permission error, not a not-found one, and the classifier absorbs it
    just the same: it answers [False].  And the empty path, which does
    not exist, is classified by [/__], [/_] and [/__/driver]: in
    [fs_slash] the classifier answers [True] on it. *)
Lemma is_ready_to_run_absorbs_EACCES :
  (os_stat fs_denied "/r/__" = Raise (OSError EACCES)
   ∧ EACCES ≠ ENOENT
   ∧ is_ready_to_run fs_denied (Some "/r") = false)
  ∧ (os_stat fs_slash "" = Raise (OSError ENOENT)
     ∧ is_ready_to_run fs_slash (Some "") = true).
Proof. vm_compute. done. Qed.

(** C8, amended: on a path [p] that does not exist, and whose [p/__]
    resolves only when [p] is a directory (as path resolution has it for
    every path but the empty one), the classifier answers [False]; it has
    no way to raise, and every failure to inspect [p/__], whatever its
    error number, is answered [False] as well. *)
Theorem is_ready_to_run_missing (fs : os_state) (p : string) :
  resolves_through fs p →
  os_stat fs p = Raise (OSError ENOENT) →
  is_ready_to_run fs (Some p) = false
  ∧ ∀ q e, os_stat fs (q +:+ "/__") = Raise e →
           is_ready_to_run fs (Some q) = false.
Proof.
  intros Hlaw Hmissing. split.
  - destruct (is_ready_to_run fs (Some p)) eqn:E; [|done].
    apply is_ready_to_run_Some in E as (Hd & _).
    apply resolves_through_isdir in Hd; [|done].
    unfold os_path_isdir in Hd. by rewrite Hmissing in Hd.
  - intros q e Hq. unfold is_ready_to_run, os_path_isdir. by rewrite Hq.
Qed.

Lemma is_ready_to_run_missing_witness :
  is_ready_to_run fs_single (Some "/gone") = false
  ∧ ∀ q e, os_stat fs_single (q +:+ "/__") = Raise e →
           is_ready_to_run fs_single (Some q) = false.
Proof.
  apply (is_ready_to_run_missing fs_single "/gone").
  - intros t H. vm_compute in H. discriminate H.
  - vm_compute. reflexivity.
Defined.

(** ** Rules *)

Lemma append_cons (x : ascii) (a b : string) :
  String x a +:+ b = String x (a +:+ b).
Proof. reflexivity. Qed.

Lemma append_assoc (a b c : string) : (a +:+ b) +:+ c = a +:+ b +:+ c.
Proof.
  induction a as [|x a IH]; [done|].
  rewrite !append_cons. by rewrite IH.
Qed.

Lemma append_nil_r (a : string) : a +:+ "" = a.
Proof.
  induction a as [|x a IH]; [done|].
  rewrite append_cons. by rewrite IH.
Qed.

Lemma rule_string_lines (dependencies : list string) (node : string) :
  rule_string dependencies node = Ret (unlines (rule_lines dependencies node)).
Proof.
  unfold rule_string, rule_lines, unlines, nohup_out.
  let t := eval vm_compute in rule_template in change rule_template with t.
  cbn -[String.append str_join].
  rewrite !append_assoc. reflexivity.
Qed.

Lemma foldM_consume (acc : accumulator) (pairs : list pair) :
  foldM consume acc pairs
  = Ret {| makefile_string := makefile_string acc +:+ rules_text pairs;
           dependency_set := dependency_set acc ∪ seen_dependencies pairs;
           child_set := child_set acc ∪ seen_children pairs |}.
Proof.
  revert acc. induction pairs as [|[deps child] pairs IH]; intros acc.
  - destruct acc as [text ds cs]. cbn.
    unfold seen_dependencies, seen_children. cbn.
    rewrite append_nil_r. f_equal. f_equal; set_solver.
  - cbn [foldM consume]. rewrite rule_string_lines. cbn [bind].
    rewrite IH. cbn [makefile_string dependency_set child_set rules_text].
    rewrite append_assoc. f_equal. f_equal.
    + unfold seen_dependencies. cbn [map fst concat].
      rewrite list_to_set_app_L.
      assert (∀ (l : list string) (s : gset string),
                 foldl (fun s p => s ∪ {[ p ]}) s l = s ∪ list_to_set l) as ->.
      { clear. induction l as [|x l IHl]; intros s; cbn.
        - set_solver.
        - rewrite IHl. set_solver. }
      set_solver.
    + unfold seen_children. cbn [map snd]. set_solver.
Qed.

Lemma foldM_trivial_rule (text : string) (nodes : list string) :
  foldM trivial_rule text nodes
  = Ret (text +:+ rules_text (map (fun node => ([], node)) nodes)).
Proof.
  revert text. induction nodes as [|n nodes IH]; intros text.
  - cbn. by rewrite append_nil_r.
  - cbn [foldM]. unfold trivial_rule at 1. rewrite rule_string_lines.
    cbn [bind]. rewrite IH. cbn [map rules_text]. by rewrite append_assoc.
Qed.

Lemma rules_text_app (r1 r2 : list pair) :
  rules_text (r1 ++ r2) = rules_text r1 +:+ rules_text r2.
Proof.
  induction r1 as [|[d n] r1 IH]; [done|].
  cbn [app rules_text]. by rewrite IH, append_assoc.
Qed.

Lemma makefile_script (set_iter : gset string → list string) (pairs : list pair) :
  makefile set_iter pairs
  = Ret (script_text (script_goals set_iter pairs) (script_rules set_iter pairs)).
Proof.
  unfold makefile. rewrite foldM_consume. cbn [bind makefile_string dependency_set child_set].
  rewrite !(left_id_L ∅ (∪)).
  rewrite foldM_trivial_rule. cbn [bind].
  unfold script_text, script_goals, script_rules.
  rewrite rules_text_app. reflexivity.
Qed.

Lemma elem_of_seen_dependencies (pairs : list pair) (p : string) :
  p ∈ seen_dependencies pairs ↔ ∃ r, r ∈ pairs ∧ p ∈ r.1.
Proof.
  unfold seen_dependencies.
  induction pairs as [|[d n] pairs IH]; cbn [map concat fst].
  - split; [set_solver|]. intros (r & Hr & _). by apply elem_of_nil in Hr.
  - rewrite list_to_set_app_L, elem_of_union, IH, elem_of_list_to_set.
    split.
    + intros [Hp|(r & Hr & Hp)].
      * exists (d, n). split; [left|done].
      * exists r. split; [by right|done].
    + intros (r & Hr & Hp). apply elem_of_cons in Hr as [->|Hr]; [by left|].
      right. eauto.
Qed.

Lemma elem_of_seen_children (pairs : list pair) (p : string) :
  p ∈ seen_children pairs ↔ ∃ r, r ∈ pairs ∧ r.2 = p.
Proof.
  unfold seen_children.
  induction pairs as [|[d n] pairs IH]; cbn [map snd].
  - split; [set_solver|]. intros (r & Hr & _). by apply elem_of_nil in Hr.
  - rewrite list_to_set_cons, elem_of_union, IH, elem_of_singleton.
    split.
    + intros [->|(r & Hr & Hp)].
      * exists (d, n). split; [left|done].
      * exists r. split; [by right|done].
    + intros (r & Hr & Hp). apply elem_of_cons in Hr as [->|Hr]; [by left|].
      right. eauto.
Qed.

Section synthesis.
Context (set_iter : gset string → list string) (Hiter : iterates set_iter).

Lemma elem_of_set_iter (s : gset string) (x : string) :
  x ∈ set_iter s ↔ x ∈ s.
Proof. by rewrite (Hiter s), elem_of_elements. Qed.

Lemma NoDup_set_iter (s : gset string) : NoDup (set_iter s).
Proof. rewrite (Hiter s). apply NoDup_elements. Qed.

Lemma elem_of_script_rules (pairs : list pair) (r : pair) :
  r ∈ script_rules set_iter pairs ↔
  r ∈ pairs
  ∨ (r.1 = [] ∧ r.2 ∈ seen_dependencies pairs ∧ r.2 ∉ seen_children pairs).
Proof.
  unfold script_rules. rewrite elem_of_app.
  change (map (fun node : string => ([], node))) with
    (fmap (M:=list) (fun node : string => (@nil string, node))).
  rewrite list_elem_of_fmap.
  setoid_rewrite elem_of_set_iter. setoid_rewrite elem_of_difference.
  split.
  - intros [?|(n & -> & ? & ?)]; [by left | by right].
  - intros [?|(? & ? & ?)]; [by left|]. right. exists r.2.
    destruct r as [d n]; simpl in *; subst. done.
Qed.
End synthesis.

(** C2: the script [makefile] returns is the umbrella rule followed by
    the rules of [script_rules]; every marker that is a prerequisite of a
    rule, the umbrella rule included, is the target of a rule, and a
    dependency that is the node of no pair gets a rule without
    prerequisites. *)
Theorem makefile_no_dangling_prerequisite
    (set_iter : gset string → list string) (pairs : list pair) :
  iterates set_iter →
  makefile set_iter pairs
  = Ret (script_text (script_goals set_iter pairs) (script_rules set_iter pairs))
  ∧ (∀ m, (m ∈ map nohup_out (script_goals set_iter pairs)
           ∨ ∃ r, r ∈ script_rules set_iter pairs ∧ m ∈ map nohup_out r.1) →
          ∃ r, r ∈ script_rules set_iter pairs ∧ nohup_out r.2 = m)
  ∧ (∀ p, p ∈ seen_dependencies pairs → p ∉ seen_children pairs →
          ([], p) ∈ script_rules set_iter pairs).
Proof.
  intros Hiter. split; [apply makefile_script|]. split.
  - intros m Hm.
    assert (∃ p, m = nohup_out p
                 ∧ (p ∈ seen_dependencies pairs ∨ p ∈ seen_children pairs))
      as (p & -> & Hseen).
    { destruct Hm as [Hm|(r & Hr & Hm)].
      - apply (list_elem_of_fmap (A:=string)) in Hm as (p & -> & Hp).
        exists p. split; [done|]. unfold script_goals in Hp.
        by apply (elem_of_set_iter _ Hiter), elem_of_union in Hp.
      - apply (list_elem_of_fmap (A:=string)) in Hm as (p & -> & Hp).
        exists p. split; [done|].
        apply (elem_of_script_rules _ Hiter) in Hr as [Hr|(Hnil & _)].
        + left. rewrite elem_of_seen_dependencies. exists r. done.
        + rewrite Hnil in Hp. by apply elem_of_nil in Hp. }
    destruct (decide (p ∈ seen_children pairs)) as [Hc|Hc].
    + apply elem_of_seen_children in Hc as (r & Hr & <-).
      exists r. split; [|done]. apply (elem_of_script_rules _ Hiter). by left.
    + destruct Hseen as [Hd|?]; [|done].
      exists ([], p). split; [|done].
      apply (elem_of_script_rules _ Hiter). by right.
  - intros p Hd Hc. apply (elem_of_script_rules _ Hiter). by right.
Qed.

Lemma makefile_no_dangling_prerequisite_witness :
  let pairs := [([], "/r"); (["/r"; "/r/a"], "/r/b")] in
  makefile elements pairs
  = Ret (script_text (script_goals elements pairs) (script_rules elements pairs))
  ∧ (∀ m, (m ∈ map nohup_out (script_goals elements pairs)
           ∨ ∃ r, r ∈ script_rules elements pairs ∧ m ∈ map nohup_out r.1) →
          ∃ r, r ∈ script_rules elements pairs ∧ nohup_out r.2 = m)
  ∧ (∀ p, p ∈ seen_dependencies pairs → p ∉ seen_children pairs →
          ([], p) ∈ script_rules elements pairs).
Proof.
  apply (makefile_no_dangling_prerequisite elements
           [([], "/r"); (["/r"; "/r/a"], "/r/b")]).
  intros s. reflexivity.
Defined.

Lemma NoDup_first_seen (l : list string) : NoDup (first_seen l).
Proof.
  induction l as [|x l IH]; cbn [first_seen]; [constructor|].
  apply NoDup_cons. split.
  - rewrite list_elem_of_filter. naive_solver.
  - by apply NoDup_filter.
Qed.

Lemma elem_of_first_seen (l : list string) (x : string) :
  x ∈ first_seen l ↔ x ∈ l.
Proof.
  induction l as [|y l IH]; cbn [first_seen]; [done|].
  rewrite !elem_of_cons, list_elem_of_filter, IH.
  destruct (decide (x = y)); naive_solver.
Qed.

(** C6 as stated fails: on an interpreter whose sets iterate in the order
    of [elements], the dependencies [/r/b] and [/r/a] of the only pair are
    first seen in this order, and both the rules without prerequisites and
    the umbrella rule name [/r/a] before [/r/b]. *)
Lemma makefile_not_in_insertion_order :
  let pairs := [(["/r/b"; "/r/a"], "/r/c")] in
  iterates elements
  ∧ makefile elements pairs
    ≠ Ret (script_text (insertion_order_goals pairs) (insertion_order_rules pairs))
  ∧ script_rules elements pairs
    = [(["/r/b"; "/r/a"], "/r/c"); ([], "/r/a"); ([], "/r/b")]
  ∧ insertion_order_rules pairs
    = [(["/r/b"; "/r/a"], "/r/c"); ([], "/r/b"); ([], "/r/a")].
Proof.
  split; [by intros s|]. split; [|by vm_compute].
  vm_compute. intros H. discriminate H.
Qed.

(** C6, amended: the rules of the pairs come first, in the order of the
    stream; after them, one rule without prerequisites for each dependency
    that is the node of no pair; the umbrella rule names each dependency
    and each node once.  The order inside the last two groups is the order
    in which the interpreter iterates a set, a permutation of the order of
    first appearance. *)
Theorem makefile_emission_order
    (set_iter : gset string → list string) (pairs : list pair) :
  iterates set_iter →
  ∃ trivial goals,
    makefile set_iter pairs
    = Ret (script_text goals (pairs ++ map (fun node => ([], node)) trivial))
    ∧ trivial ≡ₚ never_targeted pairs
    ∧ goals ≡ₚ insertion_order_goals pairs.
Proof.
  intros Hiter.
  exists (set_iter (seen_dependencies pairs ∖ seen_children pairs)),
         (script_goals set_iter pairs).
  split; [apply makefile_script|]. split.
  - apply NoDup_Permutation.
    + by apply NoDup_set_iter.
    + apply NoDup_filter, NoDup_first_seen.
    + intros x. unfold never_targeted.
      rewrite (elem_of_set_iter _ Hiter), elem_of_difference, list_elem_of_filter.
      rewrite elem_of_first_seen.
      unfold seen_dependencies, seen_children.
      rewrite !elem_of_list_to_set. tauto.
  - apply NoDup_Permutation.
    + by apply NoDup_set_iter.
    + apply NoDup_first_seen.
    + intros x. unfold script_goals, insertion_order_goals.
      rewrite (elem_of_set_iter _ Hiter), elem_of_union, elem_of_first_seen.
      unfold seen_dependencies, seen_children.
      rewrite !elem_of_list_to_set, elem_of_app. tauto.
Qed.

Lemma makefile_emission_order_witness :
  ∃ trivial goals,
    makefile elements [(["/r/b"; "/r/a"], "/r/c")]
    = Ret (script_text goals
             ([(["/r/b"; "/r/a"], "/r/c")] ++ map (fun node => ([], node)) trivial))
    ∧ trivial ≡ₚ never_targeted [(["/r/b"; "/r/a"], "/r/c")]
    ∧ goals ≡ₚ insertion_order_goals [(["/r/b"; "/r/a"], "/r/c")].
Proof.
  apply (makefile_emission_order elements [(["/r/b"; "/r/a"], "/r/c")]).
  intros s. reflexivity.
Defined.

(** C10: the text of a rule is the [.ONESHELL:] line, the line of the
    target [node/_/nohup.out] and its prerequisites, the four command
    lines, each after a tab, and an empty line; a rule without
    prerequisites has the same lines. *)
Theorem rule_string_shape (dependencies : list string) (node : string) :
  rule_string dependencies node
  = Ret (unlines
           [ ".ONESHELL:";
             nohup_out node +:+ ": " +:+ str_join " " (map nohup_out dependencies);
             tab +:+ "date";
             tab +:+ "mkdir " +:+ node +:+ "/_";
             tab +:+ "cd " +:+ node +:+ "/_";
             tab +:+ "nohup ../__/driver";
             "" ])
  ∧ nohup_out node = node +:+ "/_/nohup.out"
  ∧ rule_string [] node
    = Ret (unlines
             [ ".ONESHELL:";
               nohup_out node +:+ ": ";
               tab +:+ "date";
               tab +:+ "mkdir " +:+ node +:+ "/_";
               tab +:+ "cd " +:+ node +:+ "/_";
               tab +:+ "nohup ../__/driver";
               "" ]).
Proof.
  split; [|split]; [apply rule_string_lines | reflexivity |].
  rewrite rule_string_lines. unfold rule_lines, nohup_out. cbn [map str_join String.concat].
  by rewrite append_nil_r.
Qed.

(** The script of an empty stream and the script of the single ready
    node. *)
Example makefile_empty : makefile elements [] = Ret ("all: " +:+ nl +:+ nl).
Proof. vm_compute. reflexivity. Qed.

Example makefile_single :
  makefile elements (find_dependencies fs_single 5 "/r" true).1
  = Ret ("all: /r/_/nohup.out" +:+ nl +:+
         nl +:+
         ".ONESHELL:" +:+ nl +:+
         "/r/_/nohup.out: " +:+ nl +:+
         tab +:+ "date" +:+ nl +:+
         tab +:+ "mkdir /r/_" +:+ nl +:+
         tab +:+ "cd /r/_" +:+ nl +:+
         tab +:+ "nohup ../__/driver" +:+ nl +:+
         nl).
Proof. vm_compute. reflexivity. Qed.

(** ** The bridge to make *)

Lemma run_make_cases (env : process_env) (text : string) :
  (∀ data,
     env_popen env ["make"; "-f"; "-"] = Ret tt →
     env_encode env text = Ret data →
     env_write env data = Ret tt →
     env_close env data = Ret tt →
     run_make env text
     = ([Popen ["make"; "-f"; "-"]; StdinWrite data; StdinClose;
         Wait (env_wait env data)], Ret tt))
  ∧ (∀ ex code, (run_make env text).2 = Raise ex →
                Wait code ∉ (run_make env text).1).
Proof.
  unfold run_make. split.
  - intros data -> -> -> ->. reflexivity.
  - intros ex code.
    destruct (env_popen env _); [|cbn; set_solver].
    destruct (env_encode env text) as [data|]; [|cbn; set_solver].
    destruct (env_write env data); [|cbn; set_solver].
    destruct (env_close env data); [done|cbn; set_solver].
Qed.

Lemma run_finished (fs : os_state) (env : process_env)
    (set_iter : gset string → list string) (fuel : nat) (args : Namespace)
    (pairs : list pair) :
  find_dependencies fs fuel (os_path_realpath fs (args_node args))
    (args_recursive args) = (pairs, Finished) →
  run fs env set_iter fuel args
  = let text := script_text (script_goals set_iter pairs)
                            (script_rules set_iter pairs) in
    ((run_make env text).1,
     match (run_make env text).2 with
     | Ret _ => Finished
     | Raise ex => Raised ex
     end).
Proof.
  intros Hfind. unfold run. rewrite Hfind, makefile_script. cbn [bind].
  by destruct (run_make env _) as [events [[]|ex]].
Qed.

(** C5 as stated fails: on the single ready node [/r] with an executor
    that exits with status 2, [run] waits for the executor, which reports
    2, and the interpreter exits with status 0. *)
Lemma main_ignores_exit_status :
  let args := {| args_node := "/r"; args_dry_run := false;
                 args_verbose := false; args_recursive := true |} in
  last (fst (run fs_single make_fails elements 5 args)) = Some (Wait 2)
  ∧ main fs_single make_fails elements 5 args = Some 0%Z
  ∧ main fs_single make_fails elements 5 args ≠ Some 2%Z.
Proof. vm_compute. done. Qed.

(** C5, amended: when discovery finishes, [run] starts [make -f -],
    encodes the script, writes it to the standard input of make, closes
    it and waits for the executor to exit.  The status the executor exits
    with is dropped: when none of these steps raises, the interpreter
    exits with status 0 whatever the executor reported; when one of them
    raises, the executor is not waited for and the interpreter exits with
    status 1. *)
Theorem run_waits_and_drops_exit_status (fs : os_state) (env : process_env)
    (set_iter : gset string → list string) (fuel : nat) (args : Namespace)
    (pairs : list pair) :
  find_dependencies fs fuel (os_path_realpath fs (args_node args))
    (args_recursive args) = (pairs, Finished) →
  ∃ text,
    makefile set_iter pairs = Ret text
    ∧ (∀ data,
         env_popen env ["make"; "-f"; "-"] = Ret tt →
         env_encode env text = Ret data →
         env_write env data = Ret tt →
         env_close env data = Ret tt →
         run fs env set_iter fuel args
         = ([Popen ["make"; "-f"; "-"]; StdinWrite data; StdinClose;
             Wait (env_wait env data)], Finished)
         ∧ main fs env set_iter fuel args = Some 0%Z)
    ∧ (∀ ex, (run_make env text).2 = Raise ex →
             (run fs env set_iter fuel args).2 = Raised ex
             ∧ (∀ code, Wait code ∉ (run fs env set_iter fuel args).1)
             ∧ main fs env set_iter fuel args = Some 1%Z).
Proof.
  intros Hfind. eexists. split; [apply makefile_script|].
  unfold main. rewrite (run_finished _ _ _ _ _ _ Hfind). cbn zeta.
  destruct (run_make_cases env (script_text (script_goals set_iter pairs)
                                            (script_rules set_iter pairs)))
    as [Hok Hraise].
  split.
  - intros data H1 H2 H3 H4. by rewrite (Hok data H1 H2 H3 H4).
  - intros ex Hex. cbn [fst snd]. rewrite Hex. split; [done|].
    split; [|done]. intros code. by apply (Hraise ex).
Qed.

Lemma run_waits_and_drops_exit_status_witness :
  let args := {| args_node := "/r"; args_dry_run := false;
                 args_verbose := false; args_recursive := true |} in
  (∃ data,
     run fs_single make_fails elements 5 args
     = ([Popen ["make"; "-f"; "-"]; StdinWrite data; StdinClose; Wait 2],
        Finished)
     ∧ main fs_single make_fails elements 5 args = Some 0%Z)
  ∧ ((run fs_single no_make elements 5 args).2 = Raised (OSError ENOENT)
     ∧ (∀ code, Wait code ∉ (run fs_single no_make elements 5 args).1)
     ∧ main fs_single no_make elements 5 args = Some 1%Z).
Proof.
  intros args. split.
  - destruct (run_waits_and_drops_exit_status fs_single make_fails elements 5
                args [([], "/r")] eq_refl) as (text & Htext & Hok & _).
    vm_compute in Htext. injection Htext as <-.
    eexists. apply Hok; reflexivity.
  - destruct (run_waits_and_drops_exit_status fs_single no_make elements 5
                args [([], "/r")] eq_refl) as (text & _ & _ & Hraise).
    apply Hraise. reflexivity.
Defined.

(** Without a program named make the script is synthesized, nothing is
    waited for and the interpreter exits with status 1. *)
Example main_without_make :
  let args := {| args_node := "/r"; args_dry_run := false;
                 args_verbose := false; args_recursive := true |} in
  run fs_single no_make elements 5 args = ([], Raised (OSError ENOENT))
  ∧ main fs_single no_make elements 5 args = Some 1%Z.
Proof. vm_compute. done. Qed.

(** ** Discovery *)

Lemma filterM_Ret {A} (f : A → res bool) (l kept : list A) :
  filterM f l = Ret kept →
  ∀ x, x ∈ kept → x ∈ l ∧ f x = Ret true.
Proof.
  revert kept. induction l as [|a l IH]; intros kept; cbn [filterM].
  - intros [= <-] x Hx. by apply elem_of_nil in Hx.
  - destruct (f a) as [b|] eqn:Ea; cbn [bind]; [|done].
    destruct (filterM f l) as [r|]; cbn [bind]; [|done].
    intros [= <-] x Hx. destruct b.
    + apply elem_of_cons in Hx as [->|Hx].
      * split; [left|done].
      * destruct (IH r eq_refl x Hx). split; [by right|done].
    + destruct (IH r eq_refl x Hx). split; [by right|done].
Qed.

Section discovery.
Context (fs : os_state) (node : string) (recursive : bool).

Lemma belongs_to_tree_true (dirname : string) :
  belongs_to_tree fs dirname node = Ret true →
  os_path_isdir fs dirname = true
  ∧ startswith (os_path_realpath fs dirname +:+ "/")
               (os_path_realpath fs node +:+ "/") = true.
Proof.
  unfold belongs_to_tree.
  destruct (os_path_isdir fs dirname); [|done].
  destruct (os_path_isdir fs node); cbn; [|done].
  by intros [= ->].
Qed.

Lemma dependency_ok_true (x : option string) :
  dependency_ok fs node x = Ret true →
  ∃ d, x = Some d
       ∧ is_ready_to_run fs (Some (os_path_realpath fs d)) = true
       ∧ belongs_to_tree fs d node = Ret true.
Proof.
  destruct x as [d|]; cbn [dependency_ok]; [|done].
  destruct (is_ready_to_run fs (Some (os_path_realpath fs d))) eqn:E; [|done].
  eauto.
Qed.

Lemma dependency_links_realpath (child : string) (l : list string) (d : string) :
  dependency_links fs child = Ret l → d ∈ l →
  ∃ x, d = os_path_realpath fs (child +:+ "/__/dep" +:+ "/" +:+ x).
Proof.
  unfold dependency_links.
  destruct (os_path_isdir fs (child +:+ "/__/dep")).
  - destruct (os_listdir fs (child +:+ "/__/dep")) as [names|]; cbn [bind]; [|done].
    intros [= <-] Hd. apply list_elem_of_fmap in Hd as (x & -> & _).
    exists x. by rewrite append_assoc.
  - intros [= <-] Hd. by apply elem_of_nil in Hd.
Qed.

(** What a turn of the loop yields. *)
Lemma visit_yields (parent : option string) (child : string) (y : pair) :
  y ∈ (visit fs node recursive (parent, child)).1 →
  y.2 = child
  ∧ is_ready_to_run fs (Some (os_path_realpath fs child)) = true
  ∧ belongs_to_tree fs child node = Ret true
  ∧ ∃ l, dependency_links fs child = Ret l
         ∧ ∀ d, d ∈ y.1 →
                (parent = Some d ∨ d ∈ l)
                ∧ dependency_ok fs node (Some d) = Ret true.
Proof.
  unfold visit.
  destruct (dependency_links fs child) as [l|] eqn:El;
    [|intros H; by apply elem_of_nil in H].
  destruct (filterM (dependency_ok fs node) (parent :: map Some l))
    as [kept|] eqn:Ek; [|intros H; by apply elem_of_nil in H].
  destruct (is_ready_to_run fs (Some (os_path_realpath fs child))) eqn:Er.
  - destruct (belongs_to_tree fs child node) as [[]|] eqn:Eb.
    + intros Hy.
      assert (y = (omap id kept, child)) as ->.
      { destruct recursive; cbn in Hy; by apply list_elem_of_singleton in Hy. }
      cbn [fst snd]. repeat split; [done..|].
      exists l. split; [done|]. intros d Hd.
      apply list_elem_of_omap in Hd as (o & Ho & Hid). cbn in Hid. subst o.
      destruct (filterM_Ret _ _ _ Ek _ Ho) as [Hin Hok]. split; [|done].
      apply elem_of_cons in Hin as [->|Hin]; [by left|]. right.
      change (map Some l) with (Some <$> l) in Hin.
      apply list_elem_of_fmap in Hin as (d' & [= ->] & ?). done.
    + intros Hy. destruct recursive; cbn in Hy; by apply elem_of_nil in Hy.
    + intros Hy. by apply elem_of_nil in Hy.
  - intros Hy. destruct recursive; cbn in Hy; by apply elem_of_nil in Hy.
Qed.

(** What a turn of the loop appends to the queue. *)
Lemma visit_more (parent : option string) (child : string)
    (more : list entry) (e' : entry) :
  (visit fs node recursive (parent, child)).2 = Ret more → e' ∈ more →
  recursive = true
  ∧ ∃ names x, os_listdir fs child = Ret names ∧ x ∈ names
               ∧ not_marker x = true
               ∧ os_path_isdir fs (os_path_join child x) = true
               ∧ e' = (Some child, os_path_join child x).
Proof.
  unfold visit.
  destruct (dependency_links fs child) as [l|]; [|done].
  destruct (filterM (dependency_ok fs node) (parent :: map Some l)); [|done].
  destruct (if is_ready_to_run fs (Some (os_path_realpath fs child))
            then belongs_to_tree fs child node else Ret false); [|done].
  destruct recursive; cbn [snd].
  - unfold subdirectories.
    destruct (os_listdir fs child) as [names|]; cbn [bind]; [|done].
    intros [= <-] He. split; [done|].
    change (map (fun xx : string => (Some child, xx)))
      with (fmap (M:=list) (fun xx : string => (Some child, xx))) in He.
    apply list_elem_of_fmap in He as (p & -> & Hp).
    apply list_elem_of_filter in Hp as [Hdir Hp].
    change (map (os_path_join child)) with (fmap (M:=list) (os_path_join child)) in Hp.
    apply list_elem_of_fmap in Hp as (x & -> & Hx).
    apply list_elem_of_filter in Hx as [Hm Hx].
    exists names, x. done.
  - intros [= <-] He. by apply elem_of_nil in He.
Qed.

Lemma reachable_mono (q q' : list entry) (e : entry) :
  (∀ e0, e0 ∈ q' → reachable fs node recursive q e0) →
  reachable fs node recursive q' e → reachable fs node recursive q e.
Proof.
  intros Hq. induction 1 as [e He|e more e' _ IH Hv He]; [by apply Hq|].
  by eapply reachable_step.
Qed.

(** Every pair the generator yields is yielded by the turn of an entry
    that entered the queue. *)
Lemma traverse_yields (fuel : nat) (queue : list entry) (y : pair) :
  y ∈ (traverse fs node recursive fuel queue).1 →
  ∃ e, reachable fs node recursive queue e
       ∧ y ∈ (visit fs node recursive e).1.
Proof.
  revert queue. induction fuel as [|fuel IH]; intros [|e rest]; cbn [traverse fst];
    try (intros H; by apply elem_of_nil in H).
  destruct (visit fs node recursive e) as [yielded [more|ex]] eqn:Ev.
  - destruct (traverse fs node recursive fuel (rest ++ more)) as [later st] eqn:Et.
    cbn [fst]. intros Hy. apply elem_of_app in Hy as [Hy|Hy].
    + exists e. split; [apply reachable_start; left|by rewrite Ev].
    + destruct (IH (rest ++ more)) as (e1 & Hr & Hy1); [by rewrite Et|].
      exists e1. split; [|done].
      eapply reachable_mono; [|exact Hr].
      intros e0 He0. apply elem_of_app in He0 as [He0|He0].
      * apply reachable_start. by right.
      * eapply reachable_step; [apply reachable_start; left| |exact He0].
        by rewrite Ev.
  - cbn [fst]. intros Hy. exists e.
    split; [apply reachable_start; left|by rewrite Ev].
Qed.

(** The entries that enter the queue are spelled by joining listing
    names onto the root, and so are their parents. *)
Lemma reachable_joined (e : entry) :
  reachable fs node recursive [(None, node)] e →
  joined fs node e.2 ∧ ∀ p, e.1 = Some p → joined fs node p.
Proof.
  induction 1 as [e He|[parent child] more e' _ [IHc IHp] Hv He].
  - apply list_elem_of_singleton in He as ->. split; [constructor|done].
  - destruct (visit_more _ _ _ _ Hv He) as (_ & names & x & Hl & Hx & _ & _ & ->).
    cbn [fst snd] in *. split.
    + by eapply joined_entry.
    + by intros p [= <-].
Qed.

Lemma find_dependencies_yields (fuel : nat) (y : pair) :
  y ∈ (find_dependencies fs fuel node recursive).1 →
  ∃ e, reachable fs node recursive [(None, node)] e
       ∧ y ∈ (visit fs node recursive e).1.
Proof.
  unfold find_dependencies. destruct (os_path_isdir fs node).
  - apply traverse_yields.
  - intros H. by apply elem_of_nil in H.
Qed.
End discovery.

(** C3: every dependency of every pair the generator yields is a
    directory, is ready to run at its canonical path, and has a canonical
    path that, followed by a slash, starts with the root's canonical path
    followed by a slash; so a path outside the tree, the parent included,
    is no dependency. *)
Theorem find_dependencies_dependencies_in_tree (fs : os_state) (fuel : nat)
    (node : string) (recursive : bool) (dependencies : list string)
    (child d : string) :
  (dependencies, child) ∈ (find_dependencies fs fuel node recursive).1 →
  d ∈ dependencies →
  os_path_isdir fs d = true
  ∧ is_ready_to_run fs (Some (os_path_realpath fs d)) = true
  ∧ (resolves_through fs (os_path_realpath fs d) →
     eligible fs (os_path_realpath fs d))
  ∧ startswith (os_path_realpath fs d +:+ "/")
               (os_path_realpath fs node +:+ "/") = true.
Proof.
  intros Hy Hd.
  apply find_dependencies_yields in Hy as ([parent c] & _ & Hy).
  apply visit_yields in Hy as (_ & _ & _ & l & _ & Hdeps).
  destruct (Hdeps d Hd) as [_ Hok].
  apply dependency_ok_true in Hok as (d' & [= <-] & Hready & Hb).
  apply belongs_to_tree_true in Hb as [Hdir Hpre].
  repeat split; try done.
  all: apply is_ready_to_run_Some in Hready as (Hdecl & Hnone & Hdriver);
    try done.
  by apply resolves_through_isdir.
Qed.

Lemma find_dependencies_dependencies_in_tree_witness :
  os_path_isdir fs_tree "/r/a" = true
  ∧ is_ready_to_run fs_tree (Some (os_path_realpath fs_tree "/r/a")) = true
  ∧ (resolves_through fs_tree (os_path_realpath fs_tree "/r/a") →
     eligible fs_tree (os_path_realpath fs_tree "/r/a"))
  ∧ startswith (os_path_realpath fs_tree "/r/a" +:+ "/")
               (os_path_realpath fs_tree "/r" +:+ "/") = true.
Proof.
  apply (find_dependencies_dependencies_in_tree fs_tree 10 "/r" true
           ["/r"; "/r/a"] "/r/b" "/r/a").
  - vm_compute. do 2 right. left.
  - right. left.
Defined.

(** The parent [/r/out] of [/r/out/back] resolves to the ready node [/x]
    outside the tree: it is no dependency of the pair of [/r/out/back]. *)
Example fs_outside_pairs :
  find_dependencies fs_outside 10 "/r" true
  = ([([], "/r/a"); ([], "/r/out/back")], Finished)
  ∧ is_ready_to_run fs_outside (Some (os_path_realpath fs_outside "/r/out")) = true.
Proof. vm_compute. done. Qed.

(** C9: a yielded node is spelled by joining listing names onto the root
    as given; each of its dependencies is either spelled that way (the
    parent) or is the canonical path of an entry of the node's [__/dep].
    In [fs_tree] the canonical [/r/a] is a prerequisite of the rule of
    [/r/b] and [/r/s], another spelling of the same node, is the target
    of a rule. *)
Theorem find_dependencies_spellings (fs : os_state) (fuel : nat)
    (node : string) (recursive : bool) (dependencies : list string)
    (child : string) :
  (dependencies, child) ∈ (find_dependencies fs fuel node recursive).1 →
  joined fs node child
  ∧ (∀ d, d ∈ dependencies →
          joined fs node d
          ∨ ∃ x, d = os_path_realpath fs (child +:+ "/__/dep" +:+ "/" +:+ x))
  ∧ (∃ pairs, find_dependencies fs_tree 10 "/r" true = (pairs, Finished)
              ∧ (["/r"; "/r/a"], "/r/b") ∈ script_rules elements pairs
              ∧ (["/r"], "/r/s") ∈ script_rules elements pairs
              ∧ os_path_realpath fs_tree "/r/a" = "/r/a"
              ∧ os_path_realpath fs_tree "/r/s" = "/r/a").
Proof.
  intros Hy. split; [|split].
  - apply find_dependencies_yields in Hy as ([parent c] & Hr & Hy).
    apply visit_yields in Hy as (Hc & _). cbn [snd] in Hc. subst c.
    by destruct (reachable_joined _ _ _ _ Hr).
  - intros d Hd.
    apply find_dependencies_yields in Hy as ([parent c] & Hr & Hy).
    apply visit_yields in Hy as (Hc & _ & _ & l & Hl & Hdeps).
    cbn [fst snd] in *. subst c.
    destruct (Hdeps d Hd) as [[->|Hin] _].
    + left. destruct (reachable_joined _ _ _ _ Hr) as [_ Hp]. by apply Hp.
    + right. by eapply dependency_links_realpath.
  - eexists. split; [vm_compute; reflexivity|].
    split; [|split; [|done]]; vm_compute.
    + do 2 right. left.
    + do 3 right. left.
Qed.

Lemma find_dependencies_spellings_witness :
  joined fs_tree "/r" "/r/b"
  ∧ (∀ d, d ∈ ["/r"; "/r/a"] →
          joined fs_tree "/r" d
          ∨ ∃ x, d = os_path_realpath fs_tree ("/r/b" +:+ "/__/dep" +:+ "/" +:+ x))
  ∧ (∃ pairs, find_dependencies fs_tree 10 "/r" true = (pairs, Finished)
              ∧ (["/r"; "/r/a"], "/r/b") ∈ script_rules elements pairs
              ∧ (["/r"], "/r/s") ∈ script_rules elements pairs
              ∧ os_path_realpath fs_tree "/r/a" = "/r/a"
              ∧ os_path_realpath fs_tree "/r/s" = "/r/a").
Proof.
  apply (find_dependencies_spellings fs_tree 10 "/r" true ["/r"; "/r/a"] "/r/b").
  vm_compute. do 2 right. left.
Defined.

(** ** The directory that contains a link to itself *)

Lemma length_append (a b : string) :
  String.length (a +:+ b) = String.length a + String.length b.
Proof.
  induction a as [|x a IH]; [done|].
  rewrite append_cons. cbn [String.length]. by rewrite IH.
Qed.

Lemma length_loops (n : nat) : String.length (loops n) = 2 + 5 * n.
Proof.
  induction n as [|n IH]; [done|].
  cbn [loops]. rewrite length_append, IH. cbn [String.length]. lia.
Qed.

Lemma endswith_sep_append (a : string) (c : ascii) (b : string) :
  endswith_sep (a +:+ String c b) = endswith_sep (String c b).
Proof.
  induction a as [|x a IH]; [done|].
  rewrite append_cons. cbn [endswith_sep].
  destruct (a +:+ String c b) eqn:E; [|done].
  destruct a; discriminate E.
Qed.

Lemma endswith_sep_loops (n : nat) : endswith_sep (loops n) = false.
Proof.
  destruct n as [|n]; [done|]. cbn [loops]. by rewrite endswith_sep_append.
Qed.

Lemma os_path_join_loops (n : nat) : os_path_join (loops n) "loop" = loops (S n).
Proof.
  unfold os_path_join. change (startswith "loop" "/") with false. cbn match.
  rewrite endswith_sep_loops.
  destruct (String.eqb_spec (loops n) "") as [E|_]; [|done].
  apply (f_equal String.length) in E. rewrite length_loops in E. done.
Qed.

Lemma at_loops_true (limit : option nat) (suffix : string) (n : nat) :
  within limit n = true → at_loops limit suffix (loops n +:+ suffix) = true.
Proof.
  intros Hn. unfold at_loops. apply existsb_exists. exists n.
  split; [|apply String.eqb_refl].
  apply in_seq. rewrite length_append, length_loops.
  unfold within in Hn.
  destruct limit as [l|]; cbn [from_option] in *; [apply Nat.leb_le in Hn|]; lia.
Qed.

Lemma at_loops_true_nil (limit : option nat) (n : nat) :
  within limit n = true → at_loops limit "" (loops n) = true.
Proof.
  intros Hn. rewrite <- (append_nil_r (loops n)) at 1. by apply at_loops_true.
Qed.

Lemma at_loops_false (limit : option nat) (suffix p : string) :
  (∀ m, within limit m = true →
        String.length p ≠ 2 + 5 * m + String.length suffix) →
  at_loops limit suffix p = false.
Proof.
  intros Hlen. destruct (at_loops limit suffix p) eqn:E; [|done].
  unfold at_loops in E. apply existsb_exists in E as (m & Hm & E).
  apply String.eqb_eq in E. apply in_seq in Hm.
  destruct (Hlen m).
  - unfold within.
    destruct limit as [l|]; cbn [from_option] in *; [apply Nat.leb_le; lia|done].
  - by rewrite E, length_append, length_loops.
Qed.

Section loop.
Context (limit : option nat).

Lemma loop_isdir (n : nat) :
  within limit n = true → os_path_isdir (fs_loop limit) (loops n) = true.
Proof.
  intros Hn. unfold os_path_isdir. cbn [os_stat fs_loop].
  unfold loop_directory. by rewrite at_loops_true_nil.
Qed.

Lemma loop_not_isdir (n : nat) :
  within limit n = false → os_path_isdir (fs_loop limit) (loops n) = false.
Proof.
  intros Hn. unfold os_path_isdir. cbn [os_stat fs_loop].
  unfold loop_directory.
  rewrite (at_loops_false limit "" (loops n)),
          (at_loops_false limit "/__" (loops n)).
  - cbn [orb]. by repeat case_match.
  - intros m _. rewrite length_loops. cbn [String.length]. lia.
  - intros m Hm. rewrite length_loops. cbn [String.length].
    intros E. replace m with n in Hm by lia. congruence.
Qed.

Lemma loop_realpath (n : nat) : os_path_realpath (fs_loop limit) (loops n) = "/r".
Proof.
  cbn [os_path_realpath fs_loop]. by rewrite at_loops_true_nil.
Qed.

Lemma loop_no_dep (n : nat) :
  os_path_isdir (fs_loop limit) (loops n +:+ "/__/dep") = false.
Proof.
  unfold os_path_isdir. cbn [os_stat fs_loop]. unfold loop_directory.
  rewrite (at_loops_false limit "" (loops n +:+ "/__/dep")),
          (at_loops_false limit "/__" (loops n +:+ "/__/dep")).
  - cbn [orb]. by repeat case_match.
  - intros m _. rewrite length_append, length_loops. cbn [String.length]. lia.
  - intros m _. rewrite length_append, length_loops. cbn [String.length]. lia.
Qed.

Lemma within_0 : within limit 0 = true.
Proof. by destruct limit. Qed.

Lemma within_S (n : nat) : within limit (S n) = true → within limit n = true.
Proof.
  unfold within. destruct limit as [l|]; cbn [from_option]; [|done].
  rewrite !Nat.leb_le. lia.
Qed.

Lemma loop_root_ready : is_ready_to_run (fs_loop limit) (Some "/r") = true.
Proof.
  pose proof (at_loops_true limit "/__" 0 within_0) as Hdecl.
  pose proof (at_loops_true limit "/__/driver" 0 within_0) as Hdriver.
  cbn [loops] in Hdecl, Hdriver.
  apply is_ready_to_run_Some. split; [|split].
  - unfold os_path_isdir. cbn [os_stat fs_loop]. unfold loop_directory.
    by rewrite Hdecl, orb_true_r.
  - change ("/r" +:+ "/_") with "/r/_".
    unfold os_path_exists. cbn [os_stat fs_loop]. unfold loop_directory.
    rewrite !at_loops_false; [done|intros m _; cbn [String.length]; lia..].
  - cbn [os_access_X_OK fs_loop]. unfold loop_entry.
    by rewrite Hdriver, orb_true_r.
Qed.

Lemma loop_belongs (n : nat) :
  within limit n = true → belongs_to_tree (fs_loop limit) (loops n) "/r" = Ret true.
Proof.
  intros Hn. unfold belongs_to_tree.
  pose proof (loop_isdir 0 within_0) as Hroot.
  pose proof (loop_realpath 0) as Hreal. cbn [loops] in Hroot, Hreal.
  by rewrite (loop_isdir n Hn), Hroot, (loop_realpath n), Hreal.
Qed.

Lemma loop_subdirectories (n : nat) :
  within limit n = true →
  subdirectories (fs_loop limit) (loops n)
  = Ret (if within limit (S n)
         then [(Some (loops n), loops (S n))] else []).
Proof.
  intros Hn. unfold subdirectories. cbn [os_listdir fs_loop].
  rewrite at_loops_true_nil by done. cbn [bind].
  rewrite !filter_cons. cbn [not_marker String.eqb Ascii.eqb Bool.eqb orb negb].
  rewrite decide_False by done. rewrite decide_True by done.
  rewrite filter_nil. cbn [map]. rewrite os_path_join_loops.
  rewrite filter_cons, filter_nil.
  destruct (within limit (S n)) eqn:Hs.
  - by rewrite (loop_isdir _ Hs), decide_True.
  - by rewrite (loop_not_isdir _ Hs), decide_False.
Qed.

Lemma loop_visit (n : nat) :
  within limit n = true →
  visit (fs_loop limit) "/r" true (loop_parent n, loops n)
  = ([loop_pair n],
     Ret (if within limit (S n)
          then [(loop_parent (S n), loops (S n))] else [])).
Proof.
  intros Hn. unfold visit, dependency_links.
  rewrite loop_no_dep. cbn [map filterM].
  assert (dependency_ok (fs_loop limit) "/r" (loop_parent n)
          = Ret (match n with 0 => false | S _ => true end)) as ->.
  { destruct n as [|k]; [done|]. cbn [loop_parent dependency_ok].
    rewrite loop_realpath, loop_root_ready. by apply loop_belongs, within_S. }
  cbn [bind]. rewrite loop_realpath, loop_root_ready, (loop_belongs n Hn).
  rewrite (loop_subdirectories n Hn).
  by destruct n.
Qed.
End loop.

Lemma traverse_cons (fs : os_state) (node : string) (recursive : bool)
    (fuel : nat) (e : entry) (rest : list entry) :
  traverse fs node recursive (S fuel) (e :: rest)
  = match visit fs node recursive e with
    | (yielded, Raise ex) => (yielded, Raised ex)
    | (yielded, Ret more) =>
        let '(later, st) := traverse fs node recursive fuel (rest ++ more) in
        (yielded ++ later, st)
    end.
Proof. reflexivity. Qed.

Lemma loop_diverges (fuel n : nat) :
  (traverse (fs_loop None) "/r" true fuel [(loop_parent n, loops n)]).2
  = OutOfFuel.
Proof.
  revert n. induction fuel as [|fuel IH]; intros n; [done|].
  rewrite traverse_cons, loop_visit by done. cbn [within from_option app].
  specialize (IH (S n)).
  by destruct (traverse _ _ _ fuel _).
Qed.

Lemma loop_bounded (limit k n : nat) :
  n + k = limit →
  traverse (fs_loop (Some limit)) "/r" true (S k) [(loop_parent n, loops n)]
  = (map loop_pair (seq n (S k)), Finished).
Proof.
  revert n. induction k as [|k IH]; intros n Hn.
  - rewrite traverse_cons, loop_visit by (apply Nat.leb_le; lia).
    replace (within (Some limit) (S n)) with false
      by (symmetry; apply Nat.leb_gt; lia).
    done.
  - rewrite traverse_cons, loop_visit by (apply Nat.leb_le; lia).
    replace (within (Some limit) (S n)) with true
      by (symmetry; apply Nat.leb_le; lia).
    cbn [app]. rewrite (IH (S n)) by lia. done.
Qed.

(** C4 as stated fails: [/r] is the only directory of [fs_loop], and its
    entry [loop] is a symbolic link to it.  With no limit on the links
    followed in one path the loop of the generator never ends; with a
    limit, discovery descends as deep as the limit and yields one pair
    for each level, all for the one directory. *)
Lemma find_dependencies_follows_link_cycle :
  (∀ fuel, (find_dependencies (fs_loop None) fuel "/r" true).2 = OutOfFuel)
  ∧ (∀ limit,
       find_dependencies (fs_loop (Some limit)) (S limit) "/r" true
       = (map loop_pair (seq 0 (S limit)), Finished)).
Proof.
  split.
  - intros fuel. unfold find_dependencies.
    change "/r" with (loops 0) at 1.
    rewrite (loop_isdir None 0 eq_refl). apply (loop_diverges fuel 0).
  - intros limit. unfold find_dependencies.
    change "/r" with (loops 0) at 1.
    rewrite (loop_isdir (Some limit) 0 eq_refl).
    by apply (loop_bounded limit limit 0).
Qed.

(** ** Termination *)

Section termination.
Context (fs : os_state).

Lemma descend_app (k : nat) (a b : list string) :
descend fs k (a ++ b) = descend fs k a ++ descend fs k b.
Proof.
revert a b. induction k as [|k IH]; intros a b; [done|].
cbn [descend]. by rewrite flat_map_app, IH.
Qed.

Lemma weight_app (d : nat) (a b : list string) :
weight fs d (a ++ b) = weight fs d a + weight fs d b.
Proof.
revert a b. induction d as [|d IH]; intros a b; [done|].
cbn [weight]. rewrite flat_map_app, IH, length_app. lia.
Qed.

Lemma descend_nil_succ (k : nat) (q : list string) :
descend fs k q = [] → descend fs (S k) q = [].
Proof.
revert q. induction k as [|k IH]; intros q.
- cbn [descend]. by intros ->.
- intros H. apply (IH (flat_map (entered fs) q)). exact H.
Qed.

Lemma weight_dead (d : nat) (q : list string) :
descend fs d q = [] → weight fs (S d) q = weight fs d q.
Proof.
revert q. induction d as [|d IH]; intros q.
- cbn [descend]. by intros ->.
- intros H. change (weight fs (S (S d)) q)
    with (length q + weight fs (S d) (flat_map (entered fs) q)).
  rewrite (IH (flat_map (entered fs) q)) by exact H. done.
Qed.

Lemma descend_singleton (k : nat) (c : string) :
descend fs (S k) [c] = descend fs k (entered fs c).
Proof. cbn [descend flat_map]. by rewrite app_nil_r. Qed.

Lemma weight_singleton (d : nat) (c : string) :
weight fs (S d) [c] = 1 + weight fs d (entered fs c).
Proof. cbn [weight flat_map length]. by rewrite app_nil_r. Qed.

Context (node : string) (recursive : bool).

(** The paths a turn of the loop appends to the queue. *)
Lemma visit_more_paths (parent : option string) (child : string)
  (more : list entry) :
(visit fs node recursive (parent, child)).2 = Ret more →
map snd more = if recursive then entered fs child else [].
Proof.
unfold visit.
destruct (dependency_links fs child) as [l|]; [|done].
destruct (filterM (dependency_ok fs node) (parent :: map Some l)); [|done].
destruct (if is_ready_to_run fs (Some (os_path_realpath fs child))
          then belongs_to_tree fs child node else Ret false); [|done].
destruct recursive; cbn [snd]; [|by intros [= <-]].
unfold subdirectories, entered.
destruct (os_listdir fs child) as [names|]; cbn [bind]; [|done].
intros [= <-]. rewrite map_map. cbn [snd]. apply map_id.
Qed.

Lemma traverse_terminates (depth fuel : nat) (queue : list entry) :
descend fs depth (map snd queue) = [] →
weight fs depth (map snd queue) < fuel →
(traverse fs node recursive fuel queue).2 ≠ OutOfFuel.
Proof.
revert queue. induction fuel as [|fuel IH]; intros queue Hdead Hfuel; [lia|].
destruct queue as [|[parent child] rest]; [done|].
rewrite traverse_cons.
destruct (visit fs node recursive (parent, child)) as [yielded [more|ex]] eqn:Ev;
  [|done].
assert ((traverse fs node recursive fuel (rest ++ more)).2 ≠ OutOfFuel) as Hrec;
  [|by destruct (traverse fs node recursive fuel (rest ++ more))].
pose proof (visit_more_paths parent child more) as Hmore.
rewrite Ev in Hmore. specialize (Hmore eq_refl).
cbn [map snd] in Hdead, Hfuel.
destruct depth as [|d]; [done|].
change (child :: map snd rest) with ([child] ++ map snd rest) in Hdead, Hfuel.
rewrite descend_app in Hdead. apply app_eq_nil in Hdead as [Hchild Hrest].
rewrite weight_app, weight_singleton in Hfuel.
unfold entry in *. apply IH; rewrite List.map_app, Hmore.
- rewrite descend_app, Hrest. cbn [app]. destruct recursive.
  + rewrite <- descend_singleton. by apply descend_nil_succ.
  + clear. by induction d.
- rewrite weight_app. destruct recursive.
  + rewrite (weight_dead d (entered fs child))
      by (rewrite <- descend_singleton; exact Hchild).
    lia.
  + assert (weight fs (S d) [] = 0) as -> by (clear; by induction d). lia.
Qed.

End termination.

Lemma traverse_not_recursive (fs : os_state) (node : string) (fuel : nat)
    (e : entry) :
  (traverse fs node false (S fuel) [e]).2 ≠ OutOfFuel.
Proof.
  rewrite traverse_cons. destruct e as [parent child].
  destruct (visit fs node false (parent, child)) as [yielded [more|ex]] eqn:Ev;
    [|done].
  pose proof (visit_more_paths fs node false parent child more) as Hmore.
  rewrite Ev in Hmore. specialize (Hmore eq_refl).
  destruct more; [|done]. cbn [app]. by destruct fuel.
Qed.

(** C4, amended: without [recursive] the generator stops after one turn
    of its loop.  With [recursive] it stops whenever the directories
    entered from the root, symbolic links to directories included, are
    at most [depth] levels deep: the loop takes as many turns as there are
    such paths.  It stops by exhaustion or with an exception, and has by
    then yielded finitely many pairs. *)
Theorem find_dependencies_terminates (fs : os_state) (node : string)
    (recursive : bool) (depth : nat) :
  (recursive = true → descend fs depth [node] = []) →
  ∃ fuel, ∀ fuel', fuel ≤ fuel' →
    (find_dependencies fs fuel' node recursive).2 ≠ OutOfFuel.
Proof.
  intros Hdepth. exists (S (weight fs depth [node])). intros fuel' Hfuel.
  unfold find_dependencies. destruct (os_path_isdir fs node); [|done].
  destruct recursive.
  - apply (traverse_terminates fs node true depth); [by apply Hdepth|].
    cbn [map snd]. lia.
  - destruct fuel' as [|fuel']; [lia|]. by apply traverse_not_recursive.
Qed.

Lemma find_dependencies_terminates_witness :
  ∃ fuel, ∀ fuel', fuel ≤ fuel' →
    (find_dependencies fs_tree fuel' "/r" true).2 ≠ OutOfFuel.
Proof.
  apply (find_dependencies_terminates fs_tree "/r" true 2).
  intros _. vm_compute. reflexivity.
Defined.

(** ** Discovery does not depend on the order of listings *)

Lemma filterM_total {A} (f : A → res bool) (l : list A) :
  Forall (fun x => ∃ b, f x = Ret b) l →
  filterM f l = Ret (filter (fun x => returns_true (f x) = true) l).
Proof.
  induction 1 as [|x l [b Hb] _ IH]; [done|].
  cbn [filterM]. rewrite Hb, IH. cbn [bind]. rewrite filter_cons, Hb.
  by destruct b.
Qed.

Lemma filterM_no_raise {A} (f : A → res bool) (l kept : list A) :
  filterM f l = Ret kept → Forall (fun x => ∃ b, f x = Ret b) l.
Proof.
  revert kept. induction l as [|x l IH]; intros kept; [constructor|].
  cbn [filterM]. destruct (f x) as [b|] eqn:Ex; cbn [bind]; [|done].
  destruct (filterM f l) as [r|]; cbn [bind]; [|done].
  intros _. constructor; eauto.
Qed.

Lemma filterM_Permutation {A} (f : A → res bool) (l1 l2 kept1 : list A) :
  filterM f l1 = Ret kept1 → l1 ≡ₚ l2 →
  ∃ kept2, filterM f l2 = Ret kept2 ∧ kept1 ≡ₚ kept2.
Proof.
  intros Hk Hp. pose proof (filterM_no_raise _ _ _ Hk) as Hall.
  rewrite (filterM_total _ _ Hall) in Hk. injection Hk as <-.
  rewrite Hp in Hall. rewrite (filterM_total _ _ Hall).
  eexists. split; [done|]. by rewrite Hp.
Qed.

Lemma filterM_ext {A} (f g : A → res bool) (l : list A) :
  (∀ x, f x = g x) → filterM f l = filterM g l.
Proof.
  intros Hfg. induction l as [|x l IH]; [done|].
  cbn [filterM]. by rewrite Hfg, IH.
Qed.

Section listing_order.
Context (fs1 fs2 : os_state) (Hsame : same_filesystem fs1 fs2).
Context (node : string) (recursive : bool).

Lemma same_isdir p : os_path_isdir fs1 p = os_path_isdir fs2 p.
Proof. unfold os_path_isdir. by rewrite (same_stat _ _ Hsame). Qed.

Lemma same_exists p : os_path_exists fs1 p = os_path_exists fs2 p.
Proof. unfold os_path_exists. by rewrite (same_stat _ _ Hsame). Qed.

Lemma same_islink p : os_path_islink fs1 p = os_path_islink fs2 p.
Proof. unfold os_path_islink. by rewrite (same_lstat _ _ Hsame). Qed.

Lemma same_is_ready_to_run p : is_ready_to_run fs1 p = is_ready_to_run fs2 p.
Proof.
destruct p as [p|]; [|done]. unfold is_ready_to_run.
by rewrite same_isdir, same_exists, (same_access _ _ Hsame).
Qed.

Lemma same_belongs_to_tree d b : belongs_to_tree fs1 d b = belongs_to_tree fs2 d b.
Proof.
unfold belongs_to_tree.
by rewrite !same_isdir, !(same_realpath _ _ Hsame).
Qed.

Lemma same_dependency_ok x : dependency_ok fs1 node x = dependency_ok fs2 node x.
Proof.
destruct x as [d|]; [|done]. cbn [dependency_ok].
by rewrite (same_realpath _ _ Hsame), same_is_ready_to_run, same_belongs_to_tree.
Qed.

Lemma same_dependency_links child l1 :
dependency_links fs1 child = Ret l1 →
∃ l2, dependency_links fs2 child = Ret l2 ∧ l1 ≡ₚ l2.
Proof.
unfold dependency_links. rewrite same_isdir.
destruct (os_path_isdir fs2 (child +:+ "/__/dep")); [|by exists []; split; [|injection H as <-]].
pose proof (same_listdir _ _ Hsame (child +:+ "/__/dep")) as Hl.
destruct (os_listdir fs1 (child +:+ "/__/dep")) as [n1|];
  destruct (os_listdir fs2 (child +:+ "/__/dep")) as [n2|];
  cbn [bind same_listing] in *; try done.
intros [= <-]. eexists. split; [done|].
rewrite (map_ext _ (fun x => os_path_realpath fs2 ((child +:+ "/__/dep") +:+ "/" +:+ x)))
  by (intros x; apply (same_realpath _ _ Hsame)).
apply Permutation_map.
rewrite Hl. erewrite list_filter_iff; [done|].
intros x. by rewrite same_islink, same_isdir.
Qed.

Lemma same_subdirectories child more1 :
subdirectories fs1 child = Ret more1 →
∃ more2, subdirectories fs2 child = Ret more2 ∧ more1 ≡ₚ more2.
Proof.
unfold subdirectories.
pose proof (same_listdir _ _ Hsame child) as Hl.
destruct (os_listdir fs1 child) as [n1|];
  destruct (os_listdir fs2 child) as [n2|];
  cbn [bind same_listing] in *; try done.
intros [= <-]. eexists. split; [done|].
apply Permutation_map.
rewrite Hl. erewrite list_filter_iff; [done|].
intros x. by rewrite same_isdir.
Qed.

(** A turn that ends without an exception on [fs1] does so on [fs2],
  yields the same pairs and appends the same entries. *)
Lemma same_visit e ys1 more1 :
visit fs1 node recursive e = (ys1, Ret more1) →
∃ ys2 more2, visit fs2 node recursive e = (ys2, Ret more2)
             ∧ Forall2 same_pair ys1 ys2 ∧ more1 ≡ₚ more2.
Proof.
destruct e as [parent child]. unfold visit.
destruct (dependency_links fs1 child) as [l1|] eqn:El; [|done].
destruct (same_dependency_links _ _ El) as (l2 & -> & Hl).
destruct (filterM (dependency_ok fs1 node) (parent :: map Some l1))
  as [kept1|] eqn:Ek; [|done].
rewrite (filterM_ext _ _ _ same_dependency_ok) in Ek.
destruct (filterM_Permutation _ _ (parent :: map Some l2) _ Ek)
  as (kept2 & -> & Hk).
{ constructor. by apply Permutation_map. }
rewrite <- (same_realpath _ _ Hsame), <- same_is_ready_to_run,
  <- same_belongs_to_tree.
destruct (if is_ready_to_run fs1 (Some (os_path_realpath fs1 child))
          then belongs_to_tree fs1 child node else Ret false) as [b|]; [|done].
assert (Forall2 same_pair
          (if b then [(omap id kept1, child)] else [])
          (if b then [(omap id kept2, child)] else [])) as Hys.
{ destruct b; repeat constructor. cbn [fst]. by rewrite Hk. }
destruct recursive.
- intros [= <- Hmore]. destruct (same_subdirectories _ _ Hmore) as (more2 & -> & Hp).
  eauto.
- intros [= <- <-]. eauto.
Qed.

Lemma same_reachable queue e :
reachable fs1 node recursive queue e →
reachable fs2 node recursive queue e.
Proof.
intros Hr. induction Hr as [e He|e more e' Hr IH Hv He]; [by constructor|].
destruct (visit fs1 node recursive e) as [ys1 r1] eqn:Ev. cbn [snd] in Hv. subst r1.
destruct (same_visit _ _ _ Ev) as (ys2 & more2 & Ev2 & _ & Hp).
eapply reachable_step; [exact IH|by rewrite Ev2|]. by rewrite <- Hp.
Qed.
End listing_order.

Section exhaustion.
Context (fs : os_state) (node : string) (recursive : bool).

Lemma reachable_nil e : ¬ reachable fs node recursive [] e.
Proof.
induction 1 as [e He|]; [|done]. by apply elem_of_nil in He.
Qed.

Lemma reachable_cons e0 rest ys more e :
visit fs node recursive e0 = (ys, Ret more) →
reachable fs node recursive (e0 :: rest) e →
e = e0 ∨ reachable fs node recursive (rest ++ more) e.
Proof.
intros Hv. induction 1 as [e He|e1 more1 e Hr IH Hv1 He].
- apply elem_of_cons in He as [->|He]; [by left|].
  right. apply reachable_start, elem_of_app. by left.
- right. destruct IH as [->|IH].
  + rewrite Hv in Hv1. injection Hv1 as <-.
    apply reachable_start, elem_of_app. by right.
  + by eapply reachable_step.
Qed.

(** When the generator is exhausted, every entry that entered the queue
  had its turn, the turn ended without an exception and what it yielded
  is among the pairs of the generator. *)
Lemma traverse_finished fuel queue e :
(traverse fs node recursive fuel queue).2 = Finished →
reachable fs node recursive queue e →
(∃ more, (visit fs node recursive e).2 = Ret more)
∧ ∀ y, y ∈ (visit fs node recursive e).1 →
       y ∈ (traverse fs node recursive fuel queue).1.
Proof.
revert queue. induction fuel as [|fuel IH]; intros [|e0 rest] Hfin Hr;
  try (by apply reachable_nil in Hr); [done|].
rewrite traverse_cons in *.
destruct (visit fs node recursive e0) as [ys [more|ex]] eqn:Ev; [|done].
specialize (IH (rest ++ more)).
destruct (traverse fs node recursive fuel (rest ++ more)) as [later st].
cbn [fst snd] in *. subst st.
destruct (reachable_cons _ _ _ _ _ Ev Hr) as [->|Hr'].
- rewrite Ev. split; [by eexists|].
  intros y Hy. apply elem_of_app. by left.
- destruct (IH eq_refl Hr') as [Hmore Hys]. split; [done|].
  intros y Hy. apply elem_of_app. right. by apply Hys.
Qed.
End exhaustion.

Lemma same_filesystem_sym (fs1 fs2 : os_state) :
  same_filesystem fs1 fs2 → same_filesystem fs2 fs1.
Proof.
  intros [H1 H2 H3 H4 H5]. split; try done.
  intros p. specialize (H5 p). unfold same_listing in *.
  destruct (os_listdir fs1 p), (os_listdir fs2 p); done.
Qed.

Lemma same_pairs_included (fs1 fs2 : os_state) (node : string)
    (recursive : bool) (fuel1 fuel2 : nat) (y1 : pair) :
  same_filesystem fs1 fs2 →
  (find_dependencies fs1 fuel1 node recursive).2 = Finished →
  (find_dependencies fs2 fuel2 node recursive).2 = Finished →
  y1 ∈ (find_dependencies fs1 fuel1 node recursive).1 →
  ∃ y2, y2 ∈ (find_dependencies fs2 fuel2 node recursive).1 ∧ same_pair y1 y2.
Proof.
  intros Hsame. unfold find_dependencies.
  rewrite (same_isdir _ _ Hsame).
  destruct (os_path_isdir fs2 node); [|done].
  intros Hfin1 Hfin2 Hy.
  apply traverse_yields in Hy as (e & Hr & Hy).
  destruct (traverse_finished _ _ _ _ _ _ Hfin1 Hr) as [[more1 Hmore] _].
  destruct (visit fs1 node recursive e) as [ys1 r1] eqn:Ev1.
  cbn [fst snd] in *. subst r1.
  destruct (same_visit _ _ Hsame _ _ _ _ _ Ev1) as (ys2 & more2 & Ev2 & Hys & _).
  apply (same_reachable _ _ Hsame) in Hr.
  destruct (traverse_finished _ _ _ _ _ _ Hfin2 Hr) as [_ Hin].
  rewrite Ev2 in Hin. cbn [fst] in Hin.
  apply list_elem_of_lookup in Hy as [i Hi].
  destruct (Forall2_lookup_l _ _ _ _ _ Hys Hi) as (y2 & Hi2 & Hrel).
  exists y2. split; [|done]. apply Hin. by eapply list_elem_of_lookup_2.
Qed.

Lemma traverse_raised (fs : os_state) (node : string) (recursive : bool)
    (fuel : nat) (queue : list entry) (ex : exn) :
  (traverse fs node recursive fuel queue).2 = Raised ex →
  ∃ e, reachable fs node recursive queue e
       ∧ (visit fs node recursive e).2 = Raise ex.
Proof.
  revert queue. induction fuel as [|fuel IH]; intros [|e rest]; try done.
  rewrite traverse_cons.
  destruct (visit fs node recursive e) as [yielded [more|ex']] eqn:Ev.
  - specialize (IH (rest ++ more)).
    destruct (traverse fs node recursive fuel (rest ++ more)) as [later st].
    cbn [snd] in *. intros Hst. destruct (IH Hst) as (e1 & Hr & He1).
    exists e1. split; [|done].
    eapply reachable_mono; [|exact Hr].
    intros e0 He0. apply elem_of_app in He0 as [He0|He0].
    + apply reachable_start. by right.
    + eapply reachable_step; [apply reachable_start; left| |exact He0].
      by rewrite Ev.
  - intros [= ->]. exists e. split; [apply reachable_start; left|by rewrite Ev].
Qed.

(** A recursive traversal exhausted within [fuel] turns entered nothing
    [fuel] levels below its queue. *)
Lemma traverse_finished_depth (fs : os_state) (node : string) (fuel : nat)
    (queue : list entry) :
  (traverse fs node true fuel queue).2 = Finished →
  descend fs fuel (map snd queue) = [].
Proof.
  revert queue. induction fuel as [|fuel IH]; intros [|[parent child] rest];
    try done.
  - intros _. cbn [map]. clear. by induction fuel.
  - rewrite traverse_cons.
    destruct (visit fs node true (parent, child)) as [yielded [more|ex]] eqn:Ev;
      [|done].
    pose proof (visit_more_paths fs node true parent child more) as Hmore.
    rewrite Ev in Hmore. specialize (Hmore eq_refl).
    specialize (IH (rest ++ more)).
    destruct (traverse fs node true fuel (rest ++ more)) as [later st].
    cbn [snd] in *. intros ->. specialize (IH eq_refl).
    unfold entry in *. rewrite List.map_app, Hmore, descend_app in IH.
    apply app_eq_nil in IH as [Hrest Hchild].
    cbn [map snd].
    change (child :: map snd rest) with ([child] ++ map snd rest).
    rewrite descend_app, descend_singleton, Hchild.
    by rewrite descend_nil_succ.
Qed.

Lemma same_entered (fs1 fs2 : os_state) (child x : string) :
  same_filesystem fs1 fs2 →
  x ∈ entered fs1 child → x ∈ entered fs2 child.
Proof.
  intros Hsame. unfold entered.
  pose proof (same_listdir _ _ Hsame child) as Hl.
  destruct (os_listdir fs1 child) as [n1|], (os_listdir fs2 child) as [n2|];
    cbn [same_listing] in Hl; try done.
  rewrite !list_elem_of_filter.
  change (map (os_path_join child)) with (fmap (M:=list) (os_path_join child)).
  rewrite (same_isdir _ _ Hsame), Hl. done.
Qed.

Lemma same_descend (fs1 fs2 : os_state) (k : nat) (l1 l2 : list string) :
  same_filesystem fs1 fs2 →
  (∀ x, x ∈ l2 → x ∈ l1) →
  ∀ x, x ∈ descend fs2 k l2 → x ∈ descend fs1 k l1.
Proof.
  intros Hsame. revert l1 l2. induction k as [|k IH]; intros l1 l2 Hl; [done|].
  cbn [descend]. apply IH. intros x.
  rewrite !list_elem_of_In, !in_flat_map.
  intros (c & Hc & Hx). exists c. rewrite <- !list_elem_of_In in *.
  split; [by apply Hl|].
  apply (same_entered fs2 fs1); [by apply same_filesystem_sym|done].
Qed.

(** When a run on [fs1] is exhausted, a run on [fs2] with enough fuel is
    exhausted too. *)
Lemma same_finished (fs1 fs2 : os_state) (node : string) (recursive : bool)
    (fuel1 : nat) :
  same_filesystem fs1 fs2 →
  (find_dependencies fs1 fuel1 node recursive).2 = Finished →
  ∀ fuel2, weight fs2 fuel1 [node] < fuel2 →
  (find_dependencies fs2 fuel2 node recursive).2 = Finished.
Proof.
  intros Hsame. unfold find_dependencies.
  rewrite (same_isdir _ _ Hsame).
  destruct (os_path_isdir fs2 node); [|done].
  intros Hfin1 fuel2 Hfuel.
  destruct (traverse fs2 node recursive fuel2 [(None, node)]) as [ys2 st2] eqn:Et.
  destruct st2 as [|ex|]; [done|..]; exfalso.
  - pose proof (traverse_raised fs2 node recursive fuel2 [(None, node)] ex) as Hex.
    rewrite Et in Hex. destruct (Hex eq_refl) as (e & Hr & He).
    apply (same_reachable _ _ (same_filesystem_sym _ _ Hsame)) in Hr.
    destruct (traverse_finished _ _ _ _ _ _ Hfin1 Hr) as [[more1 Hmore] _].
    destruct (visit fs1 node recursive e) as [ys1 r1] eqn:Ev1.
    cbn [snd] in Hmore. subst r1.
    destruct (same_visit _ _ Hsame _ _ _ _ _ Ev1) as (? & more2 & Ev2 & _).
    by rewrite Ev2 in He.
  - destruct recursive.
    + apply (traverse_terminates fs2 node true fuel1 fuel2 [(None, node)]);
        [|done|by rewrite Et].
      apply traverse_finished_depth in Hfin1. cbn [map snd] in *.
      destruct (descend fs2 fuel1 [node]) as [|x l] eqn:Ed; [done|].
      assert (x ∈ descend fs1 fuel1 [node]) as Hx.
      { apply (same_descend fs1 fs2 fuel1 [node] [node]); [done..|].
        rewrite Ed. left. }
      rewrite Hfin1 in Hx. by apply elem_of_nil in Hx.
    + destruct fuel2 as [|fuel2]; [lia|].
      apply (traverse_not_recursive fs2 node fuel2 (None, node)).
      exact (f_equal snd Et).
Qed.

Lemma same_filesystem_reversed (fs : os_state) :
  same_filesystem fs (reversed_listings fs).
Proof.
  split; try done. intros p. cbn [os_listdir reversed_listings].
  destruct (os_listdir fs p); cbn; [|done]. by rewrite reverse_Permutation.
Qed.

(** C7 as stated fails: in [fs_partial] the listing of [/r] names the
    unreadable [a] and the ready [b].  A run that is given [a] first
    raises before it yields anything; a run over the same state that is
    given [b] first yields the pair of [/r/b] and then raises. *)
Lemma find_dependencies_depends_on_listing_order :
  same_filesystem fs_partial (reversed_listings fs_partial)
  ∧ find_dependencies fs_partial 10 "/r" true
    = ([], Raised (OSError EACCES))
  ∧ find_dependencies (reversed_listings fs_partial) 10 "/r" true
    = ([([], "/r/b")], Raised (OSError EACCES))
  ∧ ¬ same_pair_set
        (find_dependencies fs_partial 10 "/r" true).1
        (find_dependencies (reversed_listings fs_partial) 10 "/r" true).1.
Proof.
  split; [apply same_filesystem_reversed|].
  split; [vm_compute; reflexivity|].
  split; [vm_compute; reflexivity|].
  intros [_ H]. destruct (H ([], "/r/b")) as (y & Hy & _).
  - vm_compute. left.
  - vm_compute in Hy. by apply elem_of_nil in Hy.
Qed.

(** C7, amended: when a run of discovery reaches exhaustion, a second run
    that observes the same filesystem state, directory listings possibly
    in another order, reaches exhaustion as well and yields the same set
    of pairs: the same nodes, each with the same dependencies. *)
Theorem find_dependencies_deterministic (fs1 fs2 : os_state) (node : string)
    (recursive : bool) (fuel1 : nat) :
  same_filesystem fs1 fs2 →
  (find_dependencies fs1 fuel1 node recursive).2 = Finished →
  ∃ fuel, ∀ fuel2, fuel ≤ fuel2 →
    (find_dependencies fs2 fuel2 node recursive).2 = Finished
    ∧ same_pair_set (find_dependencies fs1 fuel1 node recursive).1
                    (find_dependencies fs2 fuel2 node recursive).1.
Proof.
  intros Hsame Hfin1. exists (S (weight fs2 fuel1 [node])). intros fuel2 Hfuel.
  assert ((find_dependencies fs2 fuel2 node recursive).2 = Finished) as Hfin2
    by (eapply same_finished; [done..|lia]).
  split; [done|]. split.
  - intros y1 Hy1. by eapply same_pairs_included.
  - intros y2 Hy2.
    destruct (same_pairs_included fs2 fs1 node recursive fuel2 fuel1 y2)
      as (y1 & Hy1 & [Hn Hd]); [by apply same_filesystem_sym|done..|].
    exists y1. split; [done|]. by split.
Qed.

Lemma find_dependencies_deterministic_witness :
  ∃ fuel, ∀ fuel2, fuel ≤ fuel2 →
    (find_dependencies (reversed_listings fs_tree) fuel2 "/r" true).2 = Finished
    ∧ same_pair_set
        (find_dependencies fs_tree 10 "/r" true).1
        (find_dependencies (reversed_listings fs_tree) fuel2 "/r" true).1.
Proof.
  apply (find_dependencies_deterministic fs_tree (reversed_listings fs_tree)
           "/r" true 10).
  - apply same_filesystem_reversed.
  - vm_compute. reflexivity.
Defined.

Example fs_tree_reversed_pairs :
  find_dependencies (reversed_listings fs_tree) 10 "/r" true
  = ([([], "/r"); (["/r"], "/r/s"); (["/r"; "/r/a"], "/r/b"); (["/r"], "/r/a")],
     Finished).
Proof. vm_compute. reflexivity. Qed.

(** * Further properties *)

(** ** What discovery yields *)

Lemma not_marker_true (x : string) :
  not_marker x = true ↔ x ≠ "_" ∧ x ≠ "__".
Proof.
  unfold not_marker. rewrite negb_true_iff, orb_false_iff, !String.eqb_neq. done.
Qed.

Lemma reachable_walked (fs : os_state) (node : string) (recursive : bool)
    (e : entry) :
  reachable fs node recursive [(None, node)] e → walked fs node e.2.
Proof.
  induction 1 as [e He|[parent child] more e' _ IH Hv He].
  - apply list_elem_of_singleton in He as ->. constructor.
  - destruct (visit_more _ _ _ _ _ _ _ Hv He)
      as (_ & names & x & Hl & Hx & Hm & Hd & ->).
    cbn [snd] in *. by eapply walked_entry.
Qed.

Lemma find_dependencies_isdir (fs : os_state) (fuel : nat) (node : string)
    (recursive : bool) (y : pair) :
  y ∈ (find_dependencies fs fuel node recursive).1 →
  os_path_isdir fs node = true.
Proof.
  unfold find_dependencies. destruct (os_path_isdir fs node); [done|].
  intros H. by apply elem_of_nil in H.
Qed.

(** X1: only nodes that are ready to run at their canonical path and lie
    in the tree are yielded: the node is a directory, [os.path.exists]
    answers [False] on the [_] of its canonical path, and its canonical
    path is in the tree of the root. *)
Theorem find_dependencies_yields_ready (fs : os_state) (fuel : nat)
    (node : string) (recursive : bool) (dependencies : list string)
    (child : string) :
  (dependencies, child) ∈ (find_dependencies fs fuel node recursive).1 →
  is_ready_to_run fs (Some (os_path_realpath fs child)) = true
  ∧ os_path_exists fs (os_path_realpath fs child +:+ "/_") = false
  ∧ os_path_isdir fs child = true
  ∧ startswith (os_path_realpath fs child +:+ "/")
               (os_path_realpath fs node +:+ "/") = true.
Proof.
  intros Hy.
  apply find_dependencies_yields in Hy as ([parent c] & _ & Hy).
  apply visit_yields in Hy as (Hc & Hready & Hb & _).
  cbn [snd] in Hc. subst c.
  apply belongs_to_tree_true in Hb as [Hdir Hpre].
  pose proof Hready as Hparts.
  apply is_ready_to_run_Some in Hparts as (_ & Hnone & _). done.
Qed.

Lemma find_dependencies_yields_ready_witness :
  is_ready_to_run fs_tree (Some (os_path_realpath fs_tree "/r/s")) = true
  ∧ os_path_exists fs_tree (os_path_realpath fs_tree "/r/s" +:+ "/_") = false
  ∧ os_path_isdir fs_tree "/r/s" = true
  ∧ startswith (os_path_realpath fs_tree "/r/s" +:+ "/")
               (os_path_realpath fs_tree "/r" +:+ "/") = true.
Proof.
  apply (find_dependencies_yields_ready fs_tree 10 "/r" true ["/r"] "/r/s").
  vm_compute. do 3 right. left.
Defined.

(** X2: a yielded node is the root or an entry, named neither [_] nor
    [__], of the listing of a walked directory, that [os.path.isdir]
    accepts: the traversal enters no entry under the names [_] and
    [__]. *)
Theorem find_dependencies_skips_markers (fs : os_state) (fuel : nat)
    (node : string) (recursive : bool) (dependencies : list string)
    (child : string) :
  (dependencies, child) ∈ (find_dependencies fs fuel node recursive).1 →
  child = node
  ∨ ∃ c names x,
      walked fs node c ∧ os_listdir fs c = Ret names ∧ x ∈ names
      ∧ x ≠ "_" ∧ x ≠ "__"
      ∧ os_path_isdir fs (os_path_join c x) = true
      ∧ child = os_path_join c x.
Proof.
  intros Hy.
  apply find_dependencies_yields in Hy as ([parent c] & Hr & Hy).
  apply visit_yields in Hy as (Hc & _). cbn [snd] in Hc. subst c.
  apply reachable_walked in Hr. cbn [snd] in Hr.
  destruct Hr as [|c names x Hc Hl Hx Hm Hd]; [by left|].
  right. apply not_marker_true in Hm as [? ?]. by exists c, names, x.
Qed.

Lemma find_dependencies_skips_markers_witness :
  "/r/b" = "/r"
  ∨ ∃ c names x,
      walked fs_tree "/r" c ∧ os_listdir fs_tree c = Ret names ∧ x ∈ names
      ∧ x ≠ "_" ∧ x ≠ "__"
      ∧ os_path_isdir fs_tree (os_path_join c x) = true
      ∧ "/r/b" = os_path_join c x.
Proof.
  apply (find_dependencies_skips_markers fs_tree 10 "/r" true
           ["/r"; "/r/a"] "/r/b").
  vm_compute. do 2 right. left.
Defined.

Lemma visit_at_most_one (fs : os_state) (node : string) (recursive : bool)
    (e : entry) :
  length (visit fs node recursive e).1 ≤ 1.
Proof.
  destruct e as [parent child]. unfold visit.
  destruct (dependency_links fs child); [|cbn; lia].
  destruct (filterM _ _); [|cbn; lia].
  destruct (if is_ready_to_run fs (Some (os_path_realpath fs child))
            then belongs_to_tree fs child node else Ret false) as [[]|];
    destruct recursive; cbn; lia.
Qed.

(** X3: without [recursive] the generator yields at most one pair, and
    its node is the root as given. *)
Theorem find_dependencies_not_recursive (fs : os_state) (fuel : nat)
    (node : string) :
  length (find_dependencies fs fuel node false).1 ≤ 1
  ∧ ∀ y, y ∈ (find_dependencies fs fuel node false).1 → y.2 = node.
Proof.
  unfold find_dependencies. destruct (os_path_isdir fs node); [|split].
  - destruct fuel as [|fuel]; [split; [cbn; lia|]|].
    { intros y Hy. by apply elem_of_nil in Hy. }
    rewrite traverse_cons.
    pose proof (visit_at_most_one fs node false (None, node)) as Hlen.
    pose proof (visit_yields fs node false None node) as Hys.
    pose proof (visit_more_paths fs node false None node) as Hmore.
    destruct (visit fs node false (None, node)) as [ys [more|ex]].
    + specialize (Hmore more eq_refl). destruct more; [|done].
      cbn [app]. replace (traverse fs node false fuel []) with
        (@nil pair, Finished) by (by destruct fuel).
      cbn [fst] in *. rewrite app_nil_r. split; [done|].
      intros y Hy. by destruct (Hys y Hy).
    + cbn [fst] in *. split; [done|].
      intros y Hy. by destruct (Hys y Hy).
  - cbn. lia.
  - intros y Hy. by apply elem_of_nil in Hy.
Qed.

(** ** Membership in the tree *)

Lemma prefix_nil (s : string) : String.prefix "" s = true.
Proof. by destruct s. Qed.

Lemma prefix_cons (c d : ascii) (a b : string) :
  String.prefix (String c a) (String d b)
  = if Ascii.ascii_dec c d then String.prefix a b else false.
Proof. reflexivity. Qed.

Lemma startswith_sep (a b : string) :
  startswith (a +:+ "/") (b +:+ "/") = true ↔
  a = b ∨ ∃ rest, a = b +:+ "/" +:+ rest.
Proof.
  unfold startswith. revert a. induction b as [|d b IH]; intros a.
  - destruct a as [|c a].
    + split; [by left|done].
    + change ("" +:+ "/") with (String "/" ""). rewrite append_cons, prefix_cons.
      rewrite prefix_nil.
      destruct (Ascii.ascii_dec "/" c) as [<-|Hc].
      * split; [|done]. intros _. right. by exists a.
      * split; [done|]. intros [?|[rest Hr]]; [done|].
        injection Hr as -> _. done.
  - destruct a as [|c a].
    + rewrite append_cons. change ("" +:+ "/") with (String "/" "").
      rewrite prefix_cons.
      assert (String.prefix (b +:+ "/") "" = false) as -> by (by destruct b).
      split; [by destruct (Ascii.ascii_dec d "/")|].
      intros [?|[rest ?]]; done.
    + rewrite !append_cons, prefix_cons.
      destruct (Ascii.ascii_dec d c) as [<-|Hc].
      * rewrite IH. split.
        -- intros [->|[rest ->]]; [by left|]. right. by exists rest.
        -- intros [[= ->]|[rest [= ->]]]; [by left|]. right. by exists rest.
      * split; [done|]. intros [[= ? ?]|[rest [= ? ?]]]; done.
Qed.

(** X5: [belongs_to_tree] raises exactly when one of its arguments is
    not a directory; otherwise it answers [True] exactly when the
    canonical path of the first is that of the second or continues it
    after a slash, so that a sibling whose name merely begins like the
    base directory's is outside. *)
Theorem belongs_to_tree_components (fs : os_state) (dirname basedir : string) :
  (belongs_to_tree fs dirname basedir = Raise AssertionError ↔
   os_path_isdir fs dirname = false ∨ os_path_isdir fs basedir = false)
  ∧ (belongs_to_tree fs dirname basedir = Ret true ↔
     os_path_isdir fs dirname = true ∧ os_path_isdir fs basedir = true
     ∧ (os_path_realpath fs dirname = os_path_realpath fs basedir
        ∨ ∃ rest, os_path_realpath fs dirname
                  = os_path_realpath fs basedir +:+ "/" +:+ rest)).
Proof.
  unfold belongs_to_tree.
  destruct (os_path_isdir fs dirname), (os_path_isdir fs basedir); cbn [andb].
  - split; [split; [done|by intros [?|?]]|].
    rewrite <- startswith_sep. split.
    + by intros [= ->].
    + by intros (_ & _ & ->).
  - split; [split; [by right|done]|]. split; [done|by intros (_ & ? & _)].
  - split; [split; [by left|done]|]. split; [done|by intros (? & _)].
  - split; [split; [by left|done]|]. split; [done|by intros (? & _)].
Qed.

(** X6: when the canonical path of the root is [/], the prefix tested is
    [//]: a yielded node has canonical path [/] or one that begins with
    two slashes, so no directory with an ordinary canonical path below
    [/] is yielded. *)
Theorem find_dependencies_at_filesystem_root (fs : os_state) (fuel : nat)
    (node : string) (recursive : bool) (dependencies : list string)
    (child : string) :
  os_path_realpath fs node = "/" →
  (dependencies, child) ∈ (find_dependencies fs fuel node recursive).1 →
  os_path_realpath fs child = "/"
  ∨ ∃ rest, os_path_realpath fs child = "//" +:+ rest.
Proof.
  intros Hroot Hy.
  apply find_dependencies_yields in Hy as ([parent c] & _ & Hy).
  apply visit_yields in Hy as (Hc & _ & Hb & _). cbn [snd] in Hc. subst c.
  apply belongs_to_tree_true in Hb as [_ Hpre].
  apply startswith_sep in Hpre.
  rewrite Hroot in Hpre. destruct Hpre as [->|[rest ->]]; [by left|].
  right. by exists rest.
Qed.

Lemma find_dependencies_at_filesystem_root_witness :
  os_path_realpath fs_slash "/" = "/"
  ∨ ∃ rest, os_path_realpath fs_slash "/" = "//" +:+ rest.
Proof.
  apply (find_dependencies_at_filesystem_root fs_slash 10 "/" true [] "/").
  - vm_compute. reflexivity.
  - vm_compute. left.
Defined.

(** The ready node [/a] is walked and not yielded. *)
Example fs_slash_pairs :
  find_dependencies fs_slash 10 "/" true = ([([], "/")], Finished)
  ∧ is_ready_to_run fs_slash (Some (os_path_realpath fs_slash "/a")) = true.
Proof. vm_compute. done. Qed.

(** ** Completeness of the dependencies *)

Lemma filterM_complete {A} (f : A → res bool) (l kept : list A) (x : A) :
  filterM f l = Ret kept → x ∈ l → f x = Ret true → x ∈ kept.
Proof.
  revert kept. induction l as [|a l IH]; intros kept; cbn [filterM].
  - intros _ Hx. by apply elem_of_nil in Hx.
  - destruct (f a) as [b|] eqn:Ea; cbn [bind]; [|done].
    destruct (filterM f l) as [r|]; cbn [bind]; [|done].
    intros [= <-] Hx Hfx. apply elem_of_cons in Hx as [->|Hx].
    + rewrite Hfx in Ea. injection Ea as <-. left.
    + specialize (IH r eq_refl Hx Hfx). destruct b; [by right|done].
Qed.

Lemma visit_dependencies_complete (fs : os_state) (node : string)
    (recursive : bool) (parent : option string) (child : string) (y : pair)
    (l : list string) (d : string) :
  y ∈ (visit fs node recursive (parent, child)).1 →
  dependency_links fs child = Ret l → d ∈ l →
  dependency_ok fs node (Some d) = Ret true →
  d ∈ y.1.
Proof.
  unfold visit. intros Hy Hl Hd Hok. rewrite Hl in Hy.
  destruct (filterM (dependency_ok fs node) (parent :: map Some l))
    as [kept|] eqn:Ek; [|by apply elem_of_nil in Hy].
  assert (Some d ∈ kept) as Hkept.
  { eapply filterM_complete; [exact Ek| |exact Hok].
    right. change (map Some l) with (Some <$> l). by apply list_elem_of_fmap_2. }
  assert (y = (omap id kept, child)) as ->.
  { destruct (if is_ready_to_run fs (Some (os_path_realpath fs child))
              then belongs_to_tree fs child node else Ret false) as [[]|];
      destruct recursive; cbn in Hy;
      first [by apply list_elem_of_singleton in Hy | by apply elem_of_nil in Hy]. }
  cbn [fst]. apply list_elem_of_omap. by exists (Some d).
Qed.

(** X7: every qualifying link of a yielded node is among its
    dependencies: if an entry of the node's [__/dep] is a symbolic link to
    a directory whose canonical path is a directory, is ready to run and
    lies in the tree, that canonical path is a dependency of the pair. *)
Theorem find_dependencies_keeps_links (fs : os_state) (fuel : nat)
    (node : string) (recursive : bool) (dependencies : list string)
    (child : string) (names : list string) (x : string) :
  let link := (child +:+ "/__/dep") +:+ "/" +:+ x in
  let d := os_path_realpath fs link in
  (dependencies, child) ∈ (find_dependencies fs fuel node recursive).1 →
  os_path_isdir fs (child +:+ "/__/dep") = true →
  os_listdir fs (child +:+ "/__/dep") = Ret names →
  x ∈ names →
  os_path_islink fs link = true →
  os_path_isdir fs link = true →
  os_path_isdir fs d = true →
  is_ready_to_run fs (Some (os_path_realpath fs d)) = true →
  startswith (os_path_realpath fs d +:+ "/")
             (os_path_realpath fs node +:+ "/") = true →
  d ∈ dependencies.
Proof.
  intros link d Hy Hdep Hnames Hx Hlink Hdir Hd Hready Hpre.
  pose proof (find_dependencies_isdir _ _ _ _ _ Hy) as Hroot.
  apply find_dependencies_yields in Hy as ([parent c] & _ & Hy).
  pose proof (visit_yields _ _ _ _ _ _ Hy) as (Hc & _). cbn [snd] in Hc. subst c.
  apply (visit_dependencies_complete fs node recursive parent child
           (dependencies, child)
           (map (fun x => os_path_realpath fs ((child +:+ "/__/dep") +:+ "/" +:+ x))
                (filter (fun x => os_path_islink fs ((child +:+ "/__/dep") +:+ "/" +:+ x) = true
                                ∧ os_path_isdir fs ((child +:+ "/__/dep") +:+ "/" +:+ x) = true)
                        names)) d Hy).
  - unfold dependency_links. by rewrite Hdep, Hnames.
  - change (map ?f) with (fmap (M:=list) f).
    apply list_elem_of_fmap. exists x. split; [done|].
    by apply list_elem_of_filter.
  - cbn [dependency_ok]. rewrite Hready. unfold belongs_to_tree.
    by rewrite Hd, Hroot, Hpre.
Qed.

Lemma find_dependencies_keeps_links_witness :
  os_path_realpath fs_tree (("/r/b" +:+ "/__/dep") +:+ "/" +:+ "x")
  ∈ ["/r"; "/r/a"].
Proof.
  apply (find_dependencies_keeps_links fs_tree 10 "/r" true ["/r"; "/r/a"]
           "/r/b" ["x"] "x").
  - vm_compute. do 2 right. left.
  - vm_compute. reflexivity.
  - vm_compute. reflexivity.
  - left.
  - vm_compute. reflexivity.
  - vm_compute. reflexivity.
  - vm_compute. reflexivity.
  - vm_compute. reflexivity.
  - vm_compute. reflexivity.
Defined.

(** ** Targets of the script *)

Lemma append_inv_tail (a b s : string) : a +:+ s = b +:+ s → a = b.
Proof.
  revert b. induction a as [|c a IH]; intros [|d b] H; [done|..].
  - apply (f_equal String.length) in H.
    rewrite !length_append in H. cbn [String.length] in H. lia.
  - apply (f_equal String.length) in H.
    rewrite !length_append in H. cbn [String.length] in H. lia.
  - rewrite !append_cons in H. injection H as -> H. by rewrite (IH b H).
Qed.

Lemma nohup_out_inj (a b : string) : nohup_out a = nohup_out b → a = b.
Proof. apply append_inv_tail. Qed.

(** X8: when the nodes of the stream are pairwise distinct, no two rules
    of the script have the same target: a rule without prerequisites is
    added only for a path that is the node of no pair, once. *)
Theorem makefile_targets_distinct (set_iter : gset string → list string)
    (pairs : list pair) :
  iterates set_iter →
  NoDup (map snd pairs) →
  makefile set_iter pairs
  = Ret (script_text (script_goals set_iter pairs) (script_rules set_iter pairs))
  ∧ NoDup (map (fun r => nohup_out r.2) (script_rules set_iter pairs)).
Proof.
  intros Hiter Hnodup. split; [apply makefile_script|].
  rewrite <- (List.map_map snd nohup_out).
  change (map nohup_out) with (fmap (M:=list) nohup_out).
  apply (NoDup_fmap_2 nohup_out (Inj0:=nohup_out_inj)).
  unfold script_rules. rewrite List.map_app, List.map_map. cbn [snd].
  rewrite List.map_id.
  apply NoDup_app. split; [exact Hnodup|]. split.
  - intros p Hp Hq. apply (elem_of_set_iter _ Hiter), elem_of_difference in Hq
      as [_ Hq]. apply Hq. unfold seen_children. by apply elem_of_list_to_set.
  - by apply NoDup_set_iter.
Qed.

Lemma makefile_targets_distinct_witness :
  let pairs := [([], "/r"); (["/r"; "/r/a"], "/r/b")] in
  makefile elements pairs
  = Ret (script_text (script_goals elements pairs) (script_rules elements pairs))
  ∧ NoDup (map (fun r => nohup_out r.2) (script_rules elements pairs)).
Proof.
  apply (makefile_targets_distinct elements
           [([], "/r"); (["/r"; "/r/a"], "/r/b")]).
  - intros s. reflexivity.
  - vm_compute. repeat constructor; set_solver.
Defined.

(** X9: the script of [makefile] is the umbrella rule, whose
    prerequisites are the markers of its goals, followed by its rules;
    the umbrella rule names the target of every rule of the script, and
    names no marker twice. *)
Theorem makefile_all_covers_targets (set_iter : gset string → list string)
    (pairs : list pair) :
  iterates set_iter →
  makefile set_iter pairs
  = Ret (script_text (script_goals set_iter pairs)
                     (script_rules set_iter pairs))
  ∧ (∀ r, r ∈ script_rules set_iter pairs →
          nohup_out r.2 ∈ map nohup_out (script_goals set_iter pairs))
  ∧ NoDup (map nohup_out (script_goals set_iter pairs)).
Proof.
  intros Hiter. split; [apply makefile_script|]. split.
  - intros r Hr. change (map nohup_out) with (fmap (M:=list) nohup_out).
    apply list_elem_of_fmap_2. unfold script_goals.
    apply (elem_of_set_iter _ Hiter), elem_of_union.
    apply (elem_of_script_rules _ Hiter) in Hr as [Hr|(_ & Hd & _)]; [|by left].
    right. rewrite elem_of_seen_children. by exists r.
  - change (map nohup_out) with (fmap (M:=list) nohup_out).
    apply (NoDup_fmap_2 nohup_out (Inj0:=nohup_out_inj)).
    by apply NoDup_set_iter.
Qed.

Lemma makefile_all_covers_targets_witness :
  let pairs := [([], "/r"); (["/r"; "/r/a"], "/r/b")] in
  makefile elements pairs
  = Ret (script_text (script_goals elements pairs)
                     (script_rules elements pairs))
  ∧ (∀ r, r ∈ script_rules elements pairs →
          nohup_out r.2 ∈ map nohup_out (script_goals elements pairs))
  ∧ NoDup (map nohup_out (script_goals elements pairs)).
Proof.
  apply (makefile_all_covers_targets elements
           [([], "/r"); (["/r"; "/r/a"], "/r/b")]).
  intros s. reflexivity.
Defined.

(** ** Completeness of discovery *)

Lemma visit_lists_child (fs : os_state) (node : string)
    (parent : option string) (child : string) (more : list entry) :
  (visit fs node true (parent, child)).2 = Ret more →
  ∃ names, os_listdir fs child = Ret names
           ∧ ∀ x, x ∈ names → not_marker x = true →
                  os_path_isdir fs (os_path_join child x) = true →
                  (Some child, os_path_join child x) ∈ more.
Proof.
  unfold visit.
  destruct (dependency_links fs child) as [l|]; [|done].
  destruct (filterM (dependency_ok fs node) (parent :: map Some l)); [|done].
  destruct (if is_ready_to_run fs (Some (os_path_realpath fs child))
            then belongs_to_tree fs child node else Ret false); [|done].
  cbn [snd]. unfold subdirectories.
  destruct (os_listdir fs child) as [names|]; cbn [bind]; [|done].
  intros [= <-]. exists names. split; [done|]. intros x Hx Hm Hd.
  change (map ?f) with (fmap (M:=list) f).
  apply list_elem_of_fmap_2, list_elem_of_filter. split; [done|].
  apply list_elem_of_fmap_2. by apply list_elem_of_filter.
Qed.

Lemma visit_yields_ready (fs : os_state) (node : string) (recursive : bool)
    (parent : option string) (child : string) (more : list entry) :
  (visit fs node recursive (parent, child)).2 = Ret more →
  is_ready_to_run fs (Some (os_path_realpath fs child)) = true →
  belongs_to_tree fs child node = Ret true →
  ∃ dependencies, (dependencies, child) ∈ (visit fs node recursive (parent, child)).1.
Proof.
  unfold visit. intros Hmore Hready Hb.
  destruct (dependency_links fs child) as [l|]; [|done].
  destruct (filterM (dependency_ok fs node) (parent :: map Some l))
    as [kept|]; [|done].
  rewrite Hready, Hb. exists (omap id kept).
  destruct recursive; cbn [fst]; left.
Qed.

(** In a recursive run that reaches exhaustion every walked directory had
    its turn. *)
Lemma walked_reachable (fs : os_state) (node : string) (fuel : nat) (p : string) :
  (traverse fs node true fuel [(None, node)]).2 = Finished →
  walked fs node p →
  ∃ parent, reachable fs node true [(None, node)] (parent, p).
Proof.
  intros Hfin. induction 1 as [|c names x _ [parent Hr] Hl Hx Hm Hd].
  - exists None. apply reachable_start. left.
  - destruct (traverse_finished _ _ _ _ _ _ Hfin Hr) as [[more Hmore] _].
    destruct (visit_lists_child _ _ _ _ _ Hmore) as (names' & Hl' & Hin).
    rewrite Hl in Hl'. injection Hl' as <-.
    exists (Some c). eapply reachable_step; [exact Hr|exact Hmore|].
    by apply Hin.
Qed.

(** X10: a recursive run that reaches exhaustion misses no node: every
    walked directory that is ready to run at its canonical path and lies
    in the tree is the node of a yielded pair, also below a root or a
    directory that is itself not ready. *)
Theorem find_dependencies_complete (fs : os_state) (fuel : nat)
    (node p : string) :
  (find_dependencies fs fuel node true).2 = Finished →
  walked fs node p →
  is_ready_to_run fs (Some (os_path_realpath fs p)) = true →
  os_path_isdir fs p = true →
  startswith (os_path_realpath fs p +:+ "/")
             (os_path_realpath fs node +:+ "/") = true →
  ∃ dependencies,
    (dependencies, p) ∈ (find_dependencies fs fuel node true).1.
Proof.
  unfold find_dependencies.
  destruct (os_path_isdir fs node) eqn:Hroot; [|done].
  intros Hfin Hw Hready Hdir Hpre.
  destruct (walked_reachable _ _ _ _ Hfin Hw) as [parent Hr].
  destruct (traverse_finished _ _ _ _ _ _ Hfin Hr) as [[more Hmore] Hys].
  destruct (visit_yields_ready fs node true parent p more Hmore Hready)
    as [dependencies Hy].
  { unfold belongs_to_tree. by rewrite Hdir, Hroot, Hpre. }
  exists dependencies. by apply Hys.
Qed.

Lemma find_dependencies_complete_witness :
  ∃ dependencies,
    (dependencies, "/r/out/back") ∈ (find_dependencies fs_outside 10 "/r" true).1.
Proof.
  apply (find_dependencies_complete fs_outside 10 "/r" "/r/out/back").
  - vm_compute. reflexivity.
  - apply (walked_entry fs_outside "/r" "/r/out" ["__"; "back"] "back").
    + apply (walked_entry fs_outside "/r" "/r" ["a"; "out"] "out").
      * apply walked_root.
      * vm_compute. reflexivity.
      * right. left.
      * vm_compute. reflexivity.
      * vm_compute. reflexivity.
    + vm_compute. reflexivity.
    + right. left.
    + vm_compute. reflexivity.
    + vm_compute. reflexivity.
  - vm_compute. reflexivity.
  - vm_compute. reflexivity.
  - vm_compute. reflexivity.
Defined.

(** X11: a directory that cannot be listed is not skipped: when a walked
    directory makes [os.listdir] raise, no recursive run reaches
    exhaustion. *)
Theorem find_dependencies_unlistable (fs : os_state) (fuel : nat)
    (node p : string) (ex : exn) :
  walked fs node p →
  os_listdir fs p = Raise ex →
  (find_dependencies fs fuel node true).2 ≠ Finished.
Proof.
  intros Hw Hl. unfold find_dependencies.
  destruct (os_path_isdir fs node); [|done]. intros Hfin.
  destruct (walked_reachable _ _ _ _ Hfin Hw) as [parent Hr].
  destruct (traverse_finished _ _ _ _ _ _ Hfin Hr) as [[more Hmore] _].
  destruct (visit_lists_child _ _ _ _ _ Hmore) as (names & Hl' & _).
  congruence.
Qed.

Lemma find_dependencies_unlistable_witness :
  (find_dependencies fs_unreadable 10 "/r" true).2 ≠ Finished.
Proof.
  apply (find_dependencies_unlistable fs_unreadable 10 "/r" "/r/a"
           (OSError EACCES)).
  - apply (walked_entry fs_unreadable "/r" "/r" ["__"; "a"] "a").
    + apply walked_root.
    + vm_compute. reflexivity.
    + right. left.
    + vm_compute. reflexivity.
    + vm_compute. reflexivity.
  - vm_compute. reflexivity.
Defined.

(** The pair of [/r] is yielded before the listing of [/r/a] fails. *)
Example fs_unreadable_pairs :
  find_dependencies fs_unreadable 10 "/r" true
  = ([([], "/r")], Raised (OSError EACCES)).
Proof. vm_compute. reflexivity. Qed.

(** ** The implicit dependency on the parent *)

Lemma visit_yields_parent (fs : os_state) (node : string) (recursive : bool)
    (c child : string) (more : list entry) :
  (visit fs node recursive (Some c, child)).2 = Ret more →
  is_ready_to_run fs (Some (os_path_realpath fs child)) = true →
  belongs_to_tree fs child node = Ret true →
  dependency_ok fs node (Some c) = Ret true →
  ∃ dependencies,
    (dependencies, child) ∈ (visit fs node recursive (Some c, child)).1
    ∧ c ∈ dependencies.
Proof.
  unfold visit. intros Hmore Hready Hb Hok.
  destruct (dependency_links fs child) as [l|]; [|done].
  destruct (filterM (dependency_ok fs node) (Some c :: map Some l))
    as [kept|] eqn:Ek; [|done].
  rewrite Hready, Hb. exists (omap id kept). split.
  - destruct recursive; cbn [fst]; left.
  - apply list_elem_of_omap. exists (Some c). split; [|done].
    eapply filterM_complete; [exact Ek|left|exact Hok].
Qed.

(** X13: in a recursive run that reaches exhaustion, a ready node in the
    tree that is an entry, named neither [_] nor [__], of a walked
    directory which is itself ready and in the tree has a pair that names
    this directory among its dependencies. *)
Theorem find_dependencies_keeps_parent (fs : os_state) (fuel : nat)
    (node c : string) (names : list string) (x : string) :
  let child := os_path_join c x in
  (find_dependencies fs fuel node true).2 = Finished →
  walked fs node c →
  os_listdir fs c = Ret names → x ∈ names → not_marker x = true →
  os_path_isdir fs child = true →
  is_ready_to_run fs (Some (os_path_realpath fs child)) = true →
  startswith (os_path_realpath fs child +:+ "/")
             (os_path_realpath fs node +:+ "/") = true →
  os_path_isdir fs c = true →
  is_ready_to_run fs (Some (os_path_realpath fs c)) = true →
  startswith (os_path_realpath fs c +:+ "/")
             (os_path_realpath fs node +:+ "/") = true →
  ∃ dependencies,
    (dependencies, child) ∈ (find_dependencies fs fuel node true).1
    ∧ c ∈ dependencies.
Proof.
  intros child. unfold find_dependencies.
  destruct (os_path_isdir fs node) eqn:Hroot; [|done].
  intros Hfin Hw Hl Hx Hm Hdir Hready Hpre Hcdir Hcready Hcpre.
  destruct (walked_reachable _ _ _ _ Hfin Hw) as [parent Hr].
  destruct (traverse_finished _ _ _ _ _ _ Hfin Hr) as [[more Hmore] _].
  destruct (visit_lists_child _ _ _ _ _ Hmore) as (names' & Hl' & Hin).
  rewrite Hl in Hl'. injection Hl' as <-.
  assert (reachable fs node true [(None, node)] (Some c, child)) as Hr'.
  { eapply reachable_step; [exact Hr|exact Hmore|]. by apply Hin. }
  destruct (traverse_finished _ _ _ _ _ _ Hfin Hr') as [[more' Hmore'] Hys].
  destruct (visit_yields_parent fs node true c child more' Hmore' Hready)
    as (dependencies & Hy & Hc).
  { unfold belongs_to_tree. by rewrite Hdir, Hroot, Hpre. }
  { cbn [dependency_ok]. rewrite Hcready. unfold belongs_to_tree.
    by rewrite Hcdir, Hroot, Hcpre. }
  exists dependencies. split; [by apply Hys|done].
Qed.

Lemma find_dependencies_keeps_parent_witness :
  ∃ dependencies,
    (dependencies, os_path_join "/r" "a")
    ∈ (find_dependencies fs_tree 10 "/r" true).1
    ∧ "/r" ∈ dependencies.
Proof.
  apply (find_dependencies_keeps_parent fs_tree 10 "/r" "/r"
           ["__"; "a"; "b"; "s"] "a").
  - vm_compute. reflexivity.
  - apply walked_root.
  - vm_compute. reflexivity.
  - right. left.
  - vm_compute. reflexivity.
  - vm_compute. reflexivity.
  - vm_compute. reflexivity.
  - vm_compute. reflexivity.
  - vm_compute. reflexivity.
  - vm_compute. reflexivity.
  - vm_compute. reflexivity.
Defined.

(** ** The exceptions of discovery *)








